(** * TileIndex: a quadkey-sorted tile index (index.go)

    A shallow embedding of [index.go] and the properties of its operations
    [Add], [sort], [search], [Values] and [TileRange].

    The index is modelled sequentially: the embedded [sync.RWMutex] is left
    out, every operation is a function from the index state to the new state
    and a result.  Go's [int] is [Z]; indexing and slicing out of range are
    run-time panics and appear as such in the results. *)

From Stdlib Require Import String Ascii List ZArith Lia Bool Permutation Sorted.
Import ListNotations.
Local Open Scope Z_scope.

(** ** The Go run time: panics, slices and loops *)

Module Go.

Inductive panic : Set :=
| IndexOutOfRange
| SliceBoundsOutOfRange.

(** What running a piece of code gives: a value, a panic, or [OutOfFuel]
    when a loop was cut before its condition became false.  The theorems
    below show that no operation of the index ends in [OutOfFuel]. *)
Inductive outcome (A : Type) : Type :=
| Ret (a : A)
| Panic (p : panic)
| OutOfFuel.

Arguments Ret {A} a.
Arguments Panic {A} p.
Arguments OutOfFuel {A}.

Definition bind {A B : Type} (m : outcome A) (k : A -> outcome B) : outcome B :=
  match m with
  | Ret a => k a
  | Panic p => Panic p
  | OutOfFuel => OutOfFuel
  end.

(** [len(l)] *)
Definition len {A : Type} (l : list A) : Z := Z.of_nat (List.length l).

(** [l[i]] *)
Definition index {A : Type} (l : list A) (i : Z) : outcome A :=
  if (i <? 0) || (len l <=? i) then Panic IndexOutOfRange
  else match nth_error l (Z.to_nat i) with
       | Some a => Ret a
       | None => Panic IndexOutOfRange
       end.

(** [for cond { body }] over the loop's variables [s]. *)
Fixpoint while {S : Type} (fuel : nat) (cond : S -> bool) (body : S -> outcome S)
  (s : S) {struct fuel} : outcome S :=
  if cond s then
    match fuel with
    | O => OutOfFuel
    | Datatypes.S fuel' =>
        match body s with
        | Ret s' => while fuel' cond body s'
        | Panic p => Panic p
        | OutOfFuel => OutOfFuel
        end
    end
  else Ret s.

(** [l[i] = x]: the slice after the assignment. *)
Definition assign {A : Type} (l : list A) (i : Z) (x : A) : outcome (list A) :=
  if (i <? 0) || (len l <=? i) then Panic IndexOutOfRange
  else Ret (firstn (Z.to_nat i) l ++ x :: skipn (S (Z.to_nat i)) l).

End Go.

Import Go.

Notation "x <- m ;; k" := (bind m (fun x => k))
  (at level 61, m at next level, right associativity).
Notation "' pat <- m ;; k" := (bind m (fun x => match x with pat => k end))
  (at level 61, pat pattern, m at next level, right associativity).

(** ** Package strings *)

Module strings.

(** [len(s)] of a string, in bytes. *)
Definition len (s : string) : Z := Z.of_nat (String.length s).

(** [strings.HasPrefix(s, prefix)] *)
Definition HasPrefix (s prefix : string) : bool := String.prefix prefix s.

(** [s[:hi]]: panics unless [0 <= hi <= len(s)]. *)
Definition slice_to (s : string) (hi : Z) : outcome string :=
  if (hi <? 0) || (len s <? hi) then Panic SliceBoundsOutOfRange
  else Ret (substring 0 (Z.to_nat hi) s).

(** [a >= b] on strings: bytewise lexicographic order. *)
Definition ge (a b : string) : bool := negb (String.ltb a b).

(** The order as a proposition, [a <= b]: [b < a] is false. *)
Definition le (a b : string) : Prop := String.ltb b a = false.

End strings.

(** ** Package sort *)

Module sort_pkg.

(** [sort.Search(n, f)]: binary search for the least [i] in [0, n] with
    [f(i)] true.  [h := int(uint(i+j) >> 1)]: the indices of a slice are
    below [2^63], so the sum does not wrap in [uint] and the shift is on the
    exact sum. *)
Definition Search (n : Z) (f : Z -> outcome bool) : outcome Z :=
  ' (i, _) <- while (Z.to_nat n)
      (fun '(i, j) => i <? j)
      (fun '(i, j) =>
         let h := Z.shiftr (i + j) 1 in
         b <- f h ;;
         if negb b then Ret (h + 1, j) else Ret (i, h))
      (0, n) ;;
  Ret i.

End sort_pkg.

(** ** Package tiles: the index *)

Module tiles.

(** [type qkey struct { qk string; v int }] *)
Record qkey : Set := { qk : string; v : Z }.

(** [byQk.Less]: [q[i].qk < q[j].qk]. *)
Definition Less (a b : qkey) : bool := String.ltb (qk a) (qk b).

(** Ascending order as [sort.Sort] leaves it: no later element is [Less]
    than an earlier one. *)
Definition key_sorted (ks : list qkey) : Prop :=
  StronglySorted (fun a b => Less b a = false) ks.

(** [sort.Sort(byQk(ks))].  The standard library's algorithm is not part of
    the index; what the index relies on is its contract: the result is a
    rearrangement of the slice, in ascending order of [Less] (ties in any
    order: the sort is not guaranteed to be stable). *)
Class Sorter : Type := {
  sort_Sort : list qkey -> list qkey;
  sort_Sort_perm : forall ks, Permutation ks (sort_Sort ks);
  sort_Sort_sorted : forall ks, key_sorted (sort_Sort ks)
}.

(** [insertionSort] of package sort, which [sort.Sort] runs on slices of at
    most 12 elements: each element in turn is swapped towards the front
    while it is [Less] than its left neighbour.  [sink x front] takes the
    already sorted front part in reverse (nearest neighbour first). *)
Fixpoint sink (x : qkey) (front : list qkey) : list qkey :=
  match front with
  | [] => [x]
  | y :: front' => if Less x y then y :: sink x front' else x :: y :: front'
  end.

Definition insertionSort (ks : list qkey) : list qkey :=
  rev (fold_left (fun front x => sink x front) ks []).

Section TileIndex.

(** The tile type and its quadkey codec come from the rest of the package. *)
Context {Tile V : Type}.
Variable QuadKey : Tile -> string.
Variable TileFromQuadKey : string -> Tile.
Context {sorter : Sorter}.

(** [type TileIndex struct { sorted bool; keys []qkey; values []interface{} }] *)
Record TileIndex : Type := {
  sorted : bool;
  keys : list qkey;
  values : list V
}.

(** The zero value [TileIndex{}]. *)
Definition empty : TileIndex :=
  {| sorted := false; keys := []; values := [] |}.

(** [func (idx *TileIndex) Add(t Tile, val interface{})] *)
Definition Add (t : Tile) (val : V) (idx : TileIndex) : TileIndex :=
  let values' := values idx ++ [val] in
  let key := {| qk := QuadKey t; v := len values' - 1 |} in
  {| sorted := false; keys := keys idx ++ [key]; values := values' |}.

(** [func (idx *TileIndex) sort()] *)
Definition sort (idx : TileIndex) : TileIndex :=
  if negb (sorted idx)
  then {| sorted := true; keys := sort_Sort (keys idx); values := values idx |}
  else idx.

(** [func (idx *TileIndex) search(qk string) int] *)
Definition search (idx : TileIndex) (key : string) : outcome Z :=
  sort_pkg.Search (len (keys idx))
    (fun i => e <- index (keys idx) i ;; Ret (strings.ge (qk e) key)).

(** [func (idx *TileIndex) Values(t Tile) (vals []interface{})].
    The loop variables are [(i, n, vals)]. *)
Definition Values (t : Tile) (idx : TileIndex) : TileIndex * outcome (list V) :=
  let idx := sort idx in
  let key := QuadKey t in
  (idx,
   i <- search idx key ;;
   if len (keys idx) <=? i then Ret []
   else
     n <- index (keys idx) i ;;
     ' (_, _, vals) <- while (length (keys idx))
         (fun '(i, n, _) => (i <? len (keys idx)) && strings.HasPrefix (qk n) key)
         (fun '(i, _, vals) =>
            n <- index (keys idx) i ;;
            val <- index (values idx) (v n) ;;
            Ret (i + 1, n, vals ++ [val]))
         (i, n, []) ;;
     Ret vals).

(** The loop over the zoom levels of one adjacent pair [(q, n)] in
    [TileRange]; [tiles] is what was sent on the channel so far. *)
Definition TileRange_pair (zmin zmax : Z) (q n : string) (tiles : list Tile)
  : outcome (list Tile) :=
  ' (_, tiles) <- while (S (String.length q))
      (fun '(z, _) => (z <=? zmax) && (z <=? strings.len q))
      (fun '(z, tiles) =>
         p <- strings.slice_to q z ;;
         if negb (strings.HasPrefix n p)
         then Ret (z + 1, tiles ++ [TileFromQuadKey p])
         else Ret (z + 1, tiles))
      (zmin, tiles) ;;
  Ret tiles.

(** The loop over the zoom levels of the last key [q] in [TileRange]. *)
Definition TileRange_last (zmin zmax : Z) (q : string) (tiles : list Tile)
  : outcome (list Tile) :=
  ' (_, tiles) <- while (S (String.length q))
      (fun '(z, _) => (z <=? zmax) && (z <=? strings.len q))
      (fun '(z, tiles) =>
         p <- strings.slice_to q z ;;
         Ret (z + 1, tiles ++ [TileFromQuadKey p]))
      (zmin, tiles) ;;
  Ret tiles.

(** [func (idx *TileIndex) TileRange(zmin, zmax int) <-chan Tile].
    The result is the sequence of tiles the goroutine sends on the channel
    before it closes it, or the panic that ends the goroutine. *)
Definition TileRange (zmin zmax : Z) (idx : TileIndex)
  : TileIndex * outcome (list Tile) :=
  let idx := sort idx in
  (idx,
   ' (_, tiles) <- while (length (keys idx))
       (fun '(i, _) => i <? len (keys idx) - 1)
       (fun '(i, tiles) =>
          q <- index (keys idx) i ;;
          n <- index (keys idx) (i + 1) ;;
          tiles <- TileRange_pair zmin zmax (qk q) (qk n) tiles ;;
          Ret (i + 1, tiles))
       (0, []) ;;
   q <- index (keys idx) (len (keys idx) - 1) ;;
   TileRange_last zmin zmax (qk q) tiles).

(** *** Clients of the index *)

(** The calls of the package's interface, and the index after a call. *)
Inductive call : Type :=
| CallAdd (t : Tile) (val : V)
| CallValues (t : Tile)
| CallTileRange (zmin zmax : Z).

Definition after (idx : TileIndex) (c : call) : TileIndex :=
  match c with
  | CallAdd t val => Add t val idx
  | CallValues t => fst (Values t idx)
  | CallTileRange zmin zmax => fst (TileRange zmin zmax idx)
  end.

(** The index a client holds after a sequence of calls on a new index. *)
Definition run (cs : list call) : TileIndex := fold_left after cs empty.

(** The read operations and what they answer. *)
Inductive read : Type :=
| ReadValues (t : Tile)
| ReadTileRange (zmin zmax : Z).

Inductive answer : Type :=
| Vals (r : outcome (list V))
| Tiles (r : outcome (list Tile)).

Definition do_read (r : read) (idx : TileIndex) : TileIndex * answer :=
  match r with
  | ReadValues t => let '(idx', a) := Values t idx in (idx', Vals a)
  | ReadTileRange zmin zmax =>
      let '(idx', a) := TileRange zmin zmax idx in (idx', Tiles a)
  end.

(** The index after a sequence of reads. *)
Definition after_reads (idx : TileIndex) (rs : list read) : TileIndex :=
  fold_left (fun idx r => fst (do_read r idx)) rs idx.

(** *** Invariants of the index *)

(** The sorted flag tells the truth. *)
Definition flag_ok (idx : TileIndex) : Prop :=
  sorted idx = true -> key_sorted (keys idx).

(** Every entry refers to a value of the store. *)
Definition refs_ok (idx : TileIndex) : Prop :=
  Forall (fun e => 0 <= v e < len (values idx)) (keys idx).

(** *** What the loops compute *)

(** [x] is the value the entry [e] refers to. *)
Definition stored (vs : list V) (e : qkey) (x : V) : Prop :=
  index vs (v e) = Ret x.

(** The entries the loop of [Values] collects when it stands before [rest]
    with [n] the entry it tests: the test is on [n], the entry collected is
    the head of [rest]. *)
Fixpoint scan (key : string) (n : qkey) (rest : list qkey) : list qkey :=
  match rest with
  | [] => []
  | e :: rest' =>
      if strings.HasPrefix (qk n) key then e :: scan key e rest' else []
  end.

(** The entries [Values] collects from sorted entries [ks]: the scan
    starts at the first entry whose key is not below [key]. *)
Fixpoint visited (key : string) (ks : list qkey) : list qkey :=
  match ks with
  | [] => []
  | e :: ks' =>
      if strings.ge (qk e) key then scan key e ks else visited key ks'
  end.

Definition scan_from (key : string) (ks : list qkey) (i : nat) : list qkey :=
  match nth_error ks i with
  | Some n => scan key n (skipn i ks)
  | None => []
  end.

(** The quadkeys [TileRange z z] sends for sorted entries [ks]: the
    length-[z] prefix of an entry when the next entry does not share it,
    and the prefix of the last entry. *)
Fixpoint closing (z : nat) (ks : list qkey) : list string :=
  match ks with
  | [] => []
  | q :: rest =>
      match rest with
      | [] => [substring 0 z (qk q)]
      | n :: _ =>
          (if strings.HasPrefix (qk n) (substring 0 z (qk q))
           then [] else [substring 0 z (qk q)]) ++ closing z rest
      end
  end.

(** Every inserted pair has its entry, and every entry was inserted. *)
Definition recorded (cs : list call) (idx : TileIndex) : Prop :=
  (forall t val, In (CallAdd t val) cs ->
     exists e, In e (keys idx) /\ qk e = QuadKey t /\ stored (values idx) e val) /\
  (forall e, In e (keys idx) ->
     exists t val, In (CallAdd t val) cs /\ qk e = QuadKey t).

(** *** The sort interface of the entries *)

(** [type byQk []qkey] *)
Definition byQk : Set := list qkey.

(** [func (q byQk) Len() int] *)
Definition byQk_Len (q : byQk) : Z := len q.

(** [func (q byQk) Swap(i, j int)]: [q[i], q[j] = q[j], q[i]].  The two
    operands on the right are read first, then the two elements are
    assigned from left to right; the result is the slice after the call. *)
Definition byQk_Swap (q : byQk) (i j : Z) : outcome byQk :=
  b <- index q j ;;
  a <- index q i ;;
  q1 <- assign q i b ;;
  assign q1 j a.

(** [func (q byQk) Less(i, j int) bool], on the indices as in the source;
    [Less] above is the comparison it makes on the two elements. *)
Definition byQk_Less (q : byQk) (i j : Z) : outcome bool :=
  a <- index q i ;;
  b <- index q j ;;
  Ret (Less a b).

(** *** What the index holds and what the reads return *)

(** The pairs of key and value the calls [cs] inserted, in call order. *)
Definition inserted (cs : list call) : list (string * V) :=
  flat_map (fun c => match c with
                     | CallAdd t val => [(QuadKey t, val)]
                     | _ => []
                     end) cs.

(** The entries of keys [ks] inserted in that order, the first one with
    value index [i]. *)
Fixpoint numbered_from (i : nat) (ks : list string) : list qkey :=
  match ks with
  | [] => []
  | k :: ks' => {| qk := k; v := Z.of_nat i |} :: numbered_from (S i) ks'
  end.

(** Among sorted entries [ks]: the entries whose key has [key] as a prefix
    and, when there is one, the first entry above [key] without it. *)
Definition collected (key : string) (ks : list qkey) : list qkey :=
  match filter (fun e => strings.HasPrefix (qk e) key) ks with
  | [] => []
  | under =>
      under ++
      firstn 1 (filter (fun e => strings.ge (qk e) key &&
                                 negb (strings.HasPrefix (qk e) key)) ks)
  end.

(** The zoom levels the loops of [TileRange] run through for a key [q]:
    from [zmin] to the smaller of [zmax] and [len(q)]. *)
Definition levels (zmin zmax : Z) (q : string) : list nat :=
  seq (Z.to_nat zmin) (Z.to_nat (Z.min zmax (strings.len q) + 1 - zmin)).

(** The prefixes [q[:z]] of [q] at these levels. *)
Definition prefixes (zmin zmax : Z) (q : string) : list string :=
  map (fun z => substring 0 z q) (levels zmin zmax q).

(** The quadkeys [TileRange zmin zmax] sends for sorted entries [ks]: for
    each entry the prefixes the next entry does not share, for the last
    entry all of them. *)
Fixpoint sent (zmin zmax : Z) (ks : list qkey) : list string :=
  match ks with
  | [] => []
  | q :: rest =>
      match rest with
      | [] => prefixes zmin zmax (qk q)
      | n :: _ =>
          filter (fun p => negb (strings.HasPrefix (qk n) p))
            (prefixes zmin zmax (qk q)) ++ sent zmin zmax rest
      end
  end.

End TileIndex.

End tiles.

Import tiles.

(** The codec of the examples: a tile is named by its quadkey. *)
Definition QuadKeyOf (t : string) : string := t.

(** The index of the scenario: ["A"] at quadkey [120], ["B"] at [1201] and
    ["C"] at [13], inserted in that order. *)
Definition scenario : @TileIndex string :=
  Add QuadKeyOf "13"%string "C"%string
    (Add QuadKeyOf "1201"%string "B"%string
       (Add QuadKeyOf "120"%string "A"%string empty)).

(** * Properties *)

(** ** Results, slices and loops *)

Module GoFacts.

Lemma index_Ret {A : Type} (l : list A) (i : Z) :
  0 <= i < len l ->
  exists a, index l i = Ret a /\ nth_error l (Z.to_nat i) = Some a.
Proof.
  intros Hi. unfold index, len in *.
  destruct (i <? 0) eqn:E1; [lia|].
  destruct (Z.of_nat (length l) <=? i) eqn:E2; [lia|]. simpl.
  destruct (nth_error l (Z.to_nat i)) as [a|] eqn:E.
  - eauto.
  - apply nth_error_None in E. lia.
Qed.

Lemma index_inv {A : Type} (l : list A) (i : Z) (a : A) :
  index l i = Ret a ->
  0 <= i < len l /\ nth_error l (Z.to_nat i) = Some a.
Proof.
  unfold index, len. intros H.
  destruct (i <? 0) eqn:E1; [discriminate|].
  destruct (Z.of_nat (length l) <=? i) eqn:E2; [discriminate|]. simpl in H.
  destruct (nth_error l (Z.to_nat i)) eqn:E; inversion H; subst.
  split; [lia | reflexivity].
Qed.

Lemma index_out {A : Type} (l : list A) (i : Z) :
  i < 0 \/ len l <= i -> index l i = Panic IndexOutOfRange.
Proof.
  unfold index, len. intros H.
  destruct (i <? 0) eqn:E1; [reflexivity|].
  destruct (Z.of_nat (length l) <=? i) eqn:E2; [reflexivity|]. lia.
Qed.

Lemma index_fuel {A : Type} (l : list A) (i : Z) : index l i <> OutOfFuel.
Proof.
  unfold index. destruct ((i <? 0) || (len l <=? i)); [discriminate|].
  destruct (nth_error l (Z.to_nat i)); discriminate.
Qed.

Lemma index_app_last {A : Type} (l : list A) (a : A) :
  index (l ++ [a]) (len l) = Ret a.
Proof.
  destruct (index_Ret (l ++ [a]) (len l)) as (b & Hb & Hn).
  - unfold len. rewrite length_app. simpl. lia.
  - rewrite Hb. f_equal. unfold len in Hn. rewrite Nat2Z.id in Hn.
    rewrite nth_error_app2 in Hn by lia.
    rewrite Nat.sub_diag in Hn. simpl in Hn. congruence.
Qed.

Lemma index_app_old {A : Type} (l : list A) (a b : A) (i : Z) :
  index l i = Ret b -> index (l ++ [a]) i = Ret b.
Proof.
  intros H. apply index_inv in H. destruct H as [Hi Hn].
  destruct (index_Ret (l ++ [a]) i) as (c & Hc & Hn').
  - unfold len in *. rewrite length_app. simpl. lia.
  - rewrite Hc. f_equal.
    rewrite nth_error_app1 in Hn' by (unfold len in Hi; lia). congruence.
Qed.

(** Total correctness of a loop: an invariant [I] kept by the body, and a
    measure [m] the body decreases and the fuel covers. *)
Lemma while_rule {S : Type} (I : S -> Prop) (m : S -> nat)
  (cond : S -> bool) (body : S -> outcome S) :
  (forall s, I s -> cond s = true ->
     exists s', body s = Ret s' /\ I s' /\ (m s' < m s)%nat) ->
  forall fuel s, I s -> (m s <= fuel)%nat ->
    exists s', while fuel cond body s = Ret s' /\ I s' /\ cond s' = false.
Proof.
  intros Hbody. induction fuel as [|fuel IH]; intros s Hs Hm; simpl.
  - destruct (cond s) eqn:Hc.
    + destruct (Hbody s Hs Hc) as (s' & _ & _ & Hlt). lia.
    + eauto.
  - destruct (cond s) eqn:Hc.
    + destruct (Hbody s Hs Hc) as (s' & Hb & Hs' & Hlt). rewrite Hb.
      apply IH; [assumption | lia].
    + eauto.
Qed.

(** The same for a body that may panic: the loop ends in a state that
    satisfies the invariant or in a panic, not for want of fuel. *)
Lemma while_rule_panic {S : Type} (Inv : S -> Prop) (m : S -> nat)
  (cond : S -> bool) (body : S -> outcome S) :
  (forall s, Inv s -> cond s = true ->
     match body s with
     | Ret s' => Inv s' /\ (m s' < m s)%nat
     | Panic _ => (0 < m s)%nat
     | OutOfFuel => False
     end) ->
  forall fuel s, Inv s -> (m s <= fuel)%nat ->
    match while fuel cond body s with
    | Ret s' => Inv s' /\ cond s' = false
    | Panic _ => True
    | OutOfFuel => False
    end.
Proof.
  intros Hbody. induction fuel as [|fuel IH]; intros s Hs Hm; simpl.
  - destruct (cond s) eqn:Hc; [|auto].
    specialize (Hbody s Hs Hc). destruct (body s); [lia|lia|exact Hbody].
  - destruct (cond s) eqn:Hc; [|auto].
    specialize (Hbody s Hs Hc). destruct (body s) as [s'| |]; auto.
    apply IH; [tauto | lia].
Qed.

(** Apply [while_rule] to the loop of the goal with invariant [I] and
    measure [m]: the body, the invariant at entry and the fuel are left to
    prove, then the loop's result is destructed with [pat]. *)
Ltac loop_with I m :=
  match goal with
  | |- context [while ?fuel ?c ?b ?s] =>
      let H := fresh "Hloop" in
      assert (H : exists s', while fuel c b s = Ret s' /\ I s' /\ c s' = false);
      [ apply (while_rule I m c b) | revert H ]
  end.

Tactic Notation "loop_with" constr(I) constr(m) "as" simple_intropattern(pat) :=
  loop_with I m; [ | | | intros pat ].

(** The same with [while_rule_panic]. *)
Ltac loop_panic_with I m :=
  match goal with
  | |- context [while ?fuel ?c ?b ?s0] =>
      let H := fresh "Hloop" in
      assert (H : match while fuel c b s0 with
                  | Ret s' => I s' /\ c s' = false
                  | Panic _ => True
                  | OutOfFuel => False
                  end);
      [ apply (while_rule_panic I m c b) | revert H ]
  end.

End GoFacts.

(** ** Lexicographic order and prefixes *)

Module StringFacts.

Lemma ascii_compare_refl (a : ascii) : Ascii.compare a a = Eq.
Proof. unfold Ascii.compare. apply N.compare_refl. Qed.

Lemma compare_refl (s : string) : String.compare s s = Eq.
Proof.
  induction s as [|a s IH]; simpl; [reflexivity|].
  rewrite ascii_compare_refl. exact IH.
Qed.

Lemma sle_iff (a b : string) : strings.le a b <-> String.compare a b <> Gt.
Proof.
  unfold strings.le, String.ltb. rewrite (String.compare_antisym a b).
  destruct (String.compare b a); simpl; split; congruence.
Qed.

Lemma sle_refl (a : string) : strings.le a a.
Proof. apply sle_iff. rewrite compare_refl. discriminate. Qed.

Lemma compare_le_trans (a b c : string) :
  String.compare a b <> Gt -> String.compare b c <> Gt ->
  String.compare a c <> Gt.
Proof.
  revert b c. induction a as [|x a IH]; intros [|y b] [|z c]; simpl;
    try congruence.
  unfold Ascii.compare.
  destruct (N.compare_spec (N_of_ascii x) (N_of_ascii y)) as [Exy|Lxy|Gxy];
    destruct (N.compare_spec (N_of_ascii y) (N_of_ascii z)) as [Eyz|Lyz|Gyz];
    destruct (N.compare_spec (N_of_ascii x) (N_of_ascii z)) as [Exz|Lxz|Gxz];
    try congruence; try lia.
  apply IH.
Qed.

Lemma sle_trans (a b c : string) :
  strings.le a b -> strings.le b c -> strings.le a c.
Proof. rewrite !sle_iff. apply compare_le_trans. Qed.

Lemma sle_antisym (a b : string) : strings.le a b -> strings.le b a -> a = b.
Proof.
  rewrite !sle_iff. intros H1 H2.
  rewrite (String.compare_antisym b a) in H2.
  destruct (String.compare a b) eqn:E.
  - apply String.compare_eq_iff. exact E.
  - simpl in H2. congruence.
  - congruence.
Qed.

Lemma prefix_sle (p s : string) : String.prefix p s = true -> strings.le p s.
Proof.
  rewrite sle_iff. revert s.
  induction p as [|x p IH]; intros [|y s]; simpl; try congruence.
  destruct (ascii_dec x y) as [->|]; [|discriminate].
  rewrite ascii_compare_refl. apply IH.
Qed.

(** The strings that extend [p] form an interval of the order. *)
Lemma prefix_between (p b c : string) :
  String.prefix p c = true -> strings.le p b -> strings.le b c ->
  String.prefix p b = true.
Proof.
  rewrite !sle_iff. revert b c.
  induction p as [|x p IH]; intros b c; [destruct b; reflexivity|].
  destruct c as [|z c]; simpl; [discriminate|].
  destruct (ascii_dec x z) as [->|]; [|discriminate].
  destruct b as [|y b]; simpl; [congruence|].
  intros Hp Hxy Hyz.
  destruct (Ascii.compare z y) eqn:E1.
  - apply Ascii.compare_eq_iff in E1. subst y.
    rewrite ascii_compare_refl in Hyz.
    destruct (ascii_dec z z); [|congruence]. eapply IH; eassumption.
  - rewrite Ascii.compare_antisym, E1 in Hyz. simpl in Hyz. congruence.
  - congruence.
Qed.

Lemma prefix_substring (n : nat) (s : string) :
  String.prefix (substring 0 n s) s = true.
Proof.
  revert s. induction n as [|n IH]; intros [|a s]; simpl; try reflexivity.
  destruct (ascii_dec a a); [apply IH | congruence].
Qed.

Lemma length_substring (n : nat) (s : string) :
  (n <= String.length s)%nat -> String.length (substring 0 n s) = n.
Proof.
  revert s. induction n as [|n IH]; intros [|a s]; simpl; intros H;
    try reflexivity; try lia.
  f_equal. apply IH. lia.
Qed.

Lemma prefix_length (p s : string) :
  String.prefix p s = true -> (String.length p <= String.length s)%nat.
Proof.
  revert s. induction p as [|x p IH]; intros [|y s]; simpl; try lia;
    try discriminate.
  destruct (ascii_dec x y); [|discriminate]. intros H. apply IH in H. lia.
Qed.

Lemma substring_prefix (p s : string) :
  String.prefix p s = true -> substring 0 (String.length p) s = p.
Proof.
  revert s. induction p as [|x p IH]; intros [|y s]; simpl;
    try reflexivity; try discriminate.
  destruct (ascii_dec x y) as [->|]; [|discriminate].
  intros H. f_equal. apply IH. exact H.
Qed.

End StringFacts.

(** ** Sorting and searching *)

Module SortFacts.

Import GoFacts StringFacts.

Lemma Less_false_sle (a b : qkey) : Less b a = false <-> strings.le (qk a) (qk b).
Proof. unfold Less, strings.le. tauto. Qed.

Lemma Less_asym (a b : qkey) : Less a b = true -> Less b a = false.
Proof.
  unfold Less, String.ltb. rewrite (String.compare_antisym (qk b) (qk a)).
  destruct (String.compare (qk a) (qk b)); simpl; congruence.
Qed.

Lemma Less_irrefl (a : qkey) : Less a a = false.
Proof. unfold Less, String.ltb. rewrite compare_refl. reflexivity. Qed.

Lemma key_sorted_inv (a : qkey) (ks : list qkey) :
  key_sorted (a :: ks) ->
  key_sorted ks /\ Forall (fun b => strings.le (qk a) (qk b)) ks.
Proof.
  intros H. apply StronglySorted_inv in H. destruct H as [H1 H2].
  split; [exact H1|]. eapply Forall_impl; [|exact H2].
  intros b Hb. apply Less_false_sle. exact Hb.
Qed.

Lemma StronglySorted_app {A : Type} (R : A -> A -> Prop) (l1 l2 : list A) :
  StronglySorted R l1 -> StronglySorted R l2 ->
  (forall a b, In a l1 -> In b l2 -> R a b) ->
  StronglySorted R (l1 ++ l2).
Proof.
  induction l1 as [|x l1 IH]; simpl; intros H1 H2 H12; [exact H2|].
  apply StronglySorted_inv in H1. destruct H1 as [H1 Hx].
  constructor.
  - apply IH; auto.
  - apply Forall_app. split; [exact Hx|].
    apply Forall_forall. intros b Hb. apply H12; auto.
Qed.

Lemma StronglySorted_rev {A : Type} (R : A -> A -> Prop) (l : list A) :
  StronglySorted R l -> StronglySorted (fun a b => R b a) (rev l).
Proof.
  induction 1 as [|x l Hl IH Hx]; simpl; [constructor|].
  apply StronglySorted_app.
  - exact IH.
  - repeat constructor.
  - intros a b Ha [<-|[]]. apply in_rev in Ha.
    rewrite Forall_forall in Hx. apply Hx. exact Ha.
Qed.

(** *** Insertion sort meets the contract of [sort.Sort] *)

Lemma sink_perm (x : qkey) (front : list qkey) :
  Permutation (x :: front) (sink x front).
Proof.
  induction front as [|y front IH]; simpl; [reflexivity|].
  destruct (Less x y); [|reflexivity].
  rewrite perm_swap. apply perm_skip. exact IH.
Qed.

Lemma sink_descending (x : qkey) (front : list qkey) :
  StronglySorted (fun a b => Less a b = false) front ->
  StronglySorted (fun a b => Less a b = false) (sink x front).
Proof.
  induction 1 as [|y front Hs IH Hy]; simpl; [repeat constructor|].
  destruct (Less x y) eqn:E.
  - constructor; [exact IH|].
    rewrite <- (sink_perm x front). constructor; [|exact Hy].
    apply Less_asym. exact E.
  - constructor; [constructor; assumption|].
    constructor; [exact E|].
    eapply Forall_impl; [|exact Hy]. intros b Hb.
    apply Less_false_sle. apply Less_false_sle in Hb, E.
    eapply sle_trans; eassumption.
Qed.

Lemma insertion_fold_perm (ks front : list qkey) :
  Permutation (rev front ++ ks) (rev (fold_left (fun f x => sink x f) ks front)).
Proof.
  revert front. induction ks as [|x ks IH]; intros front; simpl.
  - rewrite app_nil_r. reflexivity.
  - rewrite <- IH. rewrite <- (sink_perm x front). simpl.
    rewrite <- app_assoc. reflexivity.
Qed.

Lemma insertion_fold_descending (ks front : list qkey) :
  StronglySorted (fun a b => Less a b = false) front ->
  StronglySorted (fun a b => Less a b = false)
    (fold_left (fun f x => sink x f) ks front).
Proof.
  revert front. induction ks as [|x ks IH]; intros front H; simpl;
    [exact H|].
  apply IH. apply sink_descending. exact H.
Qed.

Lemma insertionSort_perm (ks : list qkey) : Permutation ks (insertionSort ks).
Proof. exact (insertion_fold_perm ks []). Qed.

Lemma insertionSort_sorted (ks : list qkey) : key_sorted (insertionSort ks).
Proof.
  unfold insertionSort, key_sorted.
  apply (StronglySorted_rev (fun a b => Less a b = false)).
  apply insertion_fold_descending. constructor.
Qed.

(** *** A slice with distinct keys has one sorted arrangement *)

Lemma sorted_perm_head (a : qkey) (l l' : list qkey) :
  Forall (fun b => Less a b = true) l ->
  key_sorted l' -> Permutation (a :: l) l' ->
  exists l0, l' = a :: l0 /\ Permutation l l0.
Proof.
  intros Ha Hs Hp. destruct l' as [|b l'].
  - apply Permutation_sym, Permutation_nil in Hp. discriminate.
  - assert (b = a) as ->.
    { assert (Hb : In b (a :: l)).
      { eapply Permutation_in; [apply Permutation_sym; exact Hp|].
        left. reflexivity. }
      destruct Hb as [Hb|Hb]; [congruence|].
      assert (Hab : Less a b = true).
      { rewrite Forall_forall in Ha. apply Ha. exact Hb. }
      assert (Ha' : In a (b :: l')).
      { eapply Permutation_in; [exact Hp|]. left. reflexivity. }
      destruct Ha' as [Ha'|Ha']; [congruence|].
      apply StronglySorted_inv in Hs. destruct Hs as [_ Hs].
      rewrite Forall_forall in Hs. specialize (Hs a Ha'). congruence. }
    exists l'. split; [reflexivity|].
    eapply Permutation_cons_inv. exact Hp.
Qed.

Lemma sorted_perm_unique (l l' : list qkey) :
  StronglySorted (fun a b => Less a b = true) l ->
  key_sorted l' -> Permutation l l' -> l' = l.
Proof.
  intros Hl. revert l'.
  induction Hl as [|a l Hl IH Ha]; intros l' Hs Hp.
  - apply Permutation_nil in Hp. exact Hp.
  - destruct (sorted_perm_head a l l' Ha Hs Hp) as (l0 & -> & Hp0).
    f_equal. apply IH; [|exact Hp0].
    apply StronglySorted_inv in Hs. tauto.
Qed.

Lemma sort_Sort_unique {sorter : Sorter} (ks l : list qkey) :
  StronglySorted (fun a b => Less a b = true) l ->
  Permutation l ks -> sort_Sort ks = l.
Proof.
  intros Hl Hp. apply sorted_perm_unique.
  - exact Hl.
  - apply sort_Sort_sorted.
  - rewrite Hp. apply sort_Sort_perm.
Qed.

Lemma sort_Sort_nil {sorter : Sorter} : sort_Sort [] = [].
Proof. apply Permutation_nil. apply sort_Sort_perm. Qed.

Lemma key_sorted_nth (ks : list qkey) (k k' : nat) (e e' : qkey) :
  key_sorted ks -> (k <= k')%nat ->
  nth_error ks k = Some e -> nth_error ks k' = Some e' ->
  strings.le (qk e) (qk e').
Proof.
  intros Hs. revert k k'.
  induction Hs as [|a ks Hs IH Ha]; intros k k' Hk He He'.
  - destruct k; discriminate.
  - destruct k as [|k], k' as [|k']; simpl in *; try lia.
    + inversion He; inversion He'; subst. apply sle_refl.
    + inversion He; subst. apply nth_error_In in He'.
      rewrite Forall_forall in Ha. apply Less_false_sle. apply Ha. exact He'.
    + eapply IH; [|eassumption|eassumption]. lia.
Qed.

(** *** Binary search *)

Lemma shiftr_half (i j : Z) :
  0 <= i -> i < j -> i <= Z.shiftr (i + j) 1 < j.
Proof.
  intros Hi Hj. rewrite Z.shiftr_div_pow2 by lia.
  change (2 ^ 1) with 2. split.
  - apply Z.div_le_lower_bound; lia.
  - apply Z.div_lt_upper_bound; lia.
Qed.

(** [Search] returns, and its result is in [0, n]. *)
Lemma Search_range (n : Z) (f : Z -> outcome bool) :
  0 <= n ->
  (forall k, 0 <= k < n -> exists b, f k = Ret b) ->
  exists i, sort_pkg.Search n f = Ret i /\ 0 <= i <= n.
Proof.
  intros Hn Hf. unfold sort_pkg.Search.
  loop_with (fun s : Z * Z => 0 <= fst s <= snd s /\ snd s <= n)
            (fun s : Z * Z => Z.to_nat (snd s - fst s))
    as ([i j] & Hw & HI & _).
  - intros [i j] HI Hc. simpl in HI. apply Z.ltb_lt in Hc.
    pose proof (shiftr_half i j) as Hh.
    destruct (Hf (Z.shiftr (i + j) 1)) as [b Hb]; [lia|].
    cbv zeta. rewrite Hb. simpl.
    destruct b; simpl; eexists; (split; [reflexivity|]); simpl; lia.
  - simpl. lia.
  - simpl. lia.
  - rewrite Hw. simpl. exists i. simpl in HI. split; [reflexivity | lia].
Qed.

(** On a monotone [f], [Search] returns the least index where [f] holds. *)
Lemma Search_first (n : Z) (f : Z -> outcome bool) :
  0 <= n ->
  (forall k, 0 <= k < n -> exists b, f k = Ret b) ->
  (forall k k', 0 <= k <= k' -> k' < n -> f k = Ret true -> f k' = Ret true) ->
  exists i, sort_pkg.Search n f = Ret i /\ 0 <= i <= n /\
    (forall k, 0 <= k < i -> f k = Ret false) /\
    (forall k, i <= k < n -> f k = Ret true).
Proof.
  intros Hn Hf Hmono. unfold sort_pkg.Search.
  loop_with (fun s : Z * Z => 0 <= fst s <= snd s /\ snd s <= n /\
               (forall k, 0 <= k < fst s -> f k = Ret false) /\
               (forall k, snd s <= k < n -> f k = Ret true))
            (fun s : Z * Z => Z.to_nat (snd s - fst s))
    as ([i j] & Hw & HI & Hc).
  - intros [i j] (Hij & Hjn & Hlo & Hhi) Hc. simpl in *. apply Z.ltb_lt in Hc.
    pose proof (shiftr_half i j) as Hh.
    destruct (Hf (Z.shiftr (i + j) 1)) as [b Hb]; [lia|].
    rewrite Hb. simpl.
    destruct b; simpl; eexists; (split; [reflexivity|]); simpl.
    + repeat split; try lia; [exact Hlo|].
      intros k Hk. apply (Hmono (Z.shiftr (i + j) 1) k); [lia | lia | exact Hb].
    + repeat split; try lia; [|exact Hhi].
      intros k Hk. destruct (Hf k) as [[|] Hbk]; [lia| |exact Hbk].
      rewrite (Hmono k (Z.shiftr (i + j) 1)) in Hb; [discriminate|lia|lia|exact Hbk].
  - simpl. repeat split; try lia; intros k Hk; lia.
  - simpl. lia.
  - rewrite Hw. simpl. exists i. simpl in HI, Hc. apply Z.ltb_ge in Hc.
    destruct HI as (Hij & Hjn & Hlo & Hhi).
    split; [reflexivity|]. split; [lia|]. split; [exact Hlo|].
    intros k Hk. apply Hhi. lia.
Qed.

End SortFacts.

(** [sort.Sort] as insertion sort, which is what the standard library
    runs on small slices: the contract of [Sorter] can be met. *)
#[export] Instance insertion_sorter : Sorter := {|
  sort_Sort := insertionSort;
  sort_Sort_perm := SortFacts.insertionSort_perm;
  sort_Sort_sorted := SortFacts.insertionSort_sorted
|}.

(** ** The operations of the index *)

Section TileIndexFacts.

Import GoFacts StringFacts SortFacts.

Context {Tile V : Type}.
Variable QuadKey : Tile -> string.
Variable TileFromQuadKey : string -> Tile.
Context {sorter : Sorter}.

Local Abbreviation TileIndex := (@TileIndex V).
Local Abbreviation call := (@call Tile V).
Local Abbreviation Add := (@Add Tile V QuadKey).
Local Abbreviation Values := (@Values Tile V QuadKey sorter).
Local Abbreviation TileRange := (@TileRange Tile V TileFromQuadKey sorter).
Local Abbreviation after := (@after Tile V QuadKey TileFromQuadKey sorter).
Local Abbreviation run := (@run Tile V QuadKey TileFromQuadKey sorter).
Local Abbreviation do_read := (@do_read Tile V QuadKey TileFromQuadKey sorter).
Local Abbreviation after_reads :=
  (@after_reads Tile V QuadKey TileFromQuadKey sorter).
Local Abbreviation recorded := (@recorded Tile V QuadKey).

(** *** Invariants *)

Lemma sort_sorted_flag (idx : TileIndex) : sorted (sort idx) = true.
Proof. unfold sort. destruct (sorted idx) eqn:E; simpl; auto. Qed.

Lemma sort_values (idx : TileIndex) : values (sort idx) = values idx.
Proof. unfold sort. destruct (sorted idx); reflexivity. Qed.

Lemma sort_keys_perm (idx : TileIndex) : Permutation (keys idx) (keys (sort idx)).
Proof.
  unfold sort. destruct (sorted idx); simpl; [reflexivity|].
  apply sort_Sort_perm.
Qed.

Lemma sort_idem (idx : TileIndex) : sort (sort idx) = sort idx.
Proof.
  unfold sort at 1. rewrite sort_sorted_flag. reflexivity.
Qed.

Lemma sort_key_sorted (idx : TileIndex) :
  flag_ok idx -> key_sorted (keys (sort idx)).
Proof.
  unfold flag_ok, sort. destruct (sorted idx); simpl; intros H.
  - apply H. reflexivity.
  - apply sort_Sort_sorted.
Qed.

Lemma flag_ok_sort (idx : TileIndex) : flag_ok idx -> flag_ok (sort idx).
Proof. intros H _. apply sort_key_sorted. exact H. Qed.

Lemma flag_ok_Add (t : Tile) (val : V) (idx : TileIndex) : flag_ok (Add t val idx).
Proof. unfold flag_ok. simpl. discriminate. Qed.

Lemma flag_ok_empty : flag_ok (empty : TileIndex).
Proof. unfold flag_ok. simpl. discriminate. Qed.

Lemma fst_Values (t : Tile) (idx : TileIndex) : fst (Values t idx) = sort idx.
Proof. reflexivity. Qed.

Lemma fst_TileRange (zmin zmax : Z) (idx : TileIndex) :
  fst (TileRange zmin zmax idx) = sort idx.
Proof. reflexivity. Qed.

Lemma flag_ok_after (idx : TileIndex) (c : call) :
  flag_ok idx -> flag_ok (after idx c).
Proof.
  intros H. destruct c; simpl.
  - apply flag_ok_Add.
  - apply flag_ok_sort. exact H.
  - apply flag_ok_sort. exact H.
Qed.

Lemma refs_ok_sort (idx : TileIndex) : refs_ok idx -> refs_ok (sort idx).
Proof.
  unfold refs_ok. intros H. rewrite sort_values.
  eapply Permutation_Forall; [apply sort_keys_perm | exact H].
Qed.

Lemma refs_ok_Add (t : Tile) (val : V) (idx : TileIndex) :
  refs_ok idx -> refs_ok (Add t val idx).
Proof.
  unfold refs_ok. simpl. intros H. apply Forall_app. split.
  - eapply Forall_impl; [|exact H]. intros e He. simpl in He.
    unfold len in *. rewrite length_app. simpl. lia.
  - constructor; [|constructor]. simpl.
    unfold len. rewrite length_app. simpl. lia.
Qed.

Lemma refs_ok_empty : refs_ok (empty : TileIndex).
Proof. constructor. Qed.

Lemma refs_ok_after (idx : TileIndex) (c : call) :
  refs_ok idx -> refs_ok (after idx c).
Proof.
  intros H. destruct c; simpl.
  - apply refs_ok_Add. exact H.
  - apply refs_ok_sort. exact H.
  - apply refs_ok_sort. exact H.
Qed.

Lemma run_snoc (cs : list call) (c : call) : run (cs ++ [c]) = after (run cs) c.
Proof. unfold run. rewrite fold_left_app. reflexivity. Qed.

Lemma run_ok (cs : list call) : flag_ok (run cs) /\ refs_ok (run cs).
Proof.
  induction cs as [|c cs IH] using rev_ind.
  - split; [apply flag_ok_empty | apply refs_ok_empty].
  - rewrite run_snoc. destruct IH as [H1 H2].
    split; [apply flag_ok_after | apply refs_ok_after]; assumption.
Qed.

(** *** Values *)

Lemma skipn_nth_error {A : Type} (l : list A) (n : nat) (a : A) :
  nth_error l n = Some a -> skipn n l = a :: skipn (S n) l.
Proof.
  revert l. induction n as [|n IH]; intros [|b l]; simpl; try discriminate.
  - intros H. inversion H. reflexivity.
  - intros H. rewrite (IH l H). destruct l; reflexivity.
Qed.

Lemma scan_stop (key : string) (n : qkey) (rest : list qkey) :
  rest = [] \/ strings.HasPrefix (qk n) key = false -> scan key n rest = [].
Proof.
  intros [->|H]; [reflexivity|]. destruct rest; simpl; [reflexivity|].
  rewrite H. reflexivity.
Qed.

(** [Values] returns whenever the references of the index are in range,
    and collects the values of the scan from where [search] stopped. *)
Lemma Values_scan (t : Tile) (idx : TileIndex) :
  refs_ok idx ->
  exists i xs,
    search (sort idx) (QuadKey t) = Ret i /\
    0 <= i <= len (keys (sort idx)) /\
    snd (Values t idx) = Ret xs /\
    Forall2 (stored (values (sort idx)))
      (scan_from (QuadKey t) (keys (sort idx)) (Z.to_nat i)) xs.
Proof.
  intros Hrefs. apply refs_ok_sort in Hrefs.
  unfold tiles.Values. cbv zeta. simpl snd.
  set (idx' := sort idx) in *. set (key := QuadKey t).
  set (ks := keys idx') in *. set (vs := values idx') in *.
  destruct (Search_range (len ks)
              (fun i => e <- index ks i ;; Ret (strings.ge (qk e) key)))
    as (i0 & Hsearch & Hi0).
  { unfold len. lia. }
  { intros k Hk. destruct (index_Ret ks k Hk) as (e & He & _).
    rewrite He. simpl. eauto. }
  exists i0. unfold search. fold ks. rewrite Hsearch. simpl.
  destruct (len ks <=? i0) eqn:Hend.
  - exists []. apply Z.leb_le in Hend.
    repeat split; try lia. unfold scan_from.
    destruct (nth_error ks (Z.to_nat i0)) eqn:E; [|constructor].
    assert (nth_error ks (Z.to_nat i0) = None) as E'.
    { apply nth_error_None. unfold len in Hend. lia. }
    congruence.
  - apply Z.leb_gt in Hend.
    destruct (index_Ret ks i0) as (n0 & Hn0 & Hnth0); [lia|].
    rewrite Hn0. simpl. unfold scan_from. rewrite Hnth0.
    loop_with
      (fun s : Z * qkey * list V =>
         let '(i, n, vals) := s in
         0 <= i <= len ks /\
         forall xs,
           Forall2 (stored vs) (scan key n (skipn (Z.to_nat i) ks)) xs ->
           Forall2 (stored vs) (scan key n0 (skipn (Z.to_nat i0) ks))
             (vals ++ xs))
      (fun s : Z * qkey * list V =>
         let '(i, _, _) := s in (length ks - Z.to_nat i)%nat)
      as ([[i n] vals] & Hw & [Hi Hinv] & Hc).
    + intros [[i n] vals] [Hi Hinv] Hc.
      apply andb_prop in Hc. destruct Hc as [Hlt Hpre]. apply Z.ltb_lt in Hlt.
      destruct (index_Ret ks i) as (e & He & Hnth); [lia|].
      rewrite He. simpl.
      assert (Hin : In e ks) by (eapply nth_error_In; exact Hnth).
      unfold refs_ok in Hrefs. rewrite Forall_forall in Hrefs.
      destruct (index_Ret vs (v e) (Hrefs e Hin)) as (x & Hx & _).
      rewrite Hx. simpl. eexists. split; [reflexivity|].
      split; [split|].
      * lia.
      * intros xs Hxs. rewrite <- app_assoc. apply Hinv.
        rewrite (skipn_nth_error ks (Z.to_nat i) e Hnth). cbn [scan].
        rewrite Hpre. constructor; [exact Hx|].
        replace (S (Z.to_nat i)) with (Z.to_nat (i + 1)) by lia. exact Hxs.
      * unfold len in *. lia.
    + split; [lia|]. intros xs Hxs. exact Hxs.
    + lia.
    + rewrite Hw. simpl. exists vals. repeat split; try lia.
      rewrite <- (app_nil_r vals). apply Hinv.
      rewrite scan_stop; [constructor|].
      apply andb_false_iff in Hc. destruct Hc as [Hc|Hc]; [left|right; exact Hc].
      apply Z.ltb_ge in Hc. apply skipn_all2. unfold len in *. lia.
Qed.

Lemma Values_total (t : Tile) (idx : TileIndex) :
  refs_ok idx -> exists xs, snd (Values t idx) = Ret xs.
Proof.
  intros H. destruct (Values_scan t idx H) as (i & xs & _ & _ & Hv & _).
  eauto.
Qed.

Lemma ge_true_sle (a key : string) : strings.ge a key = true <-> strings.le key a.
Proof.
  unfold strings.ge, strings.le. destruct (String.ltb a key); simpl; split; congruence.
Qed.

Lemma visited_scan_from (key : string) (ks : list qkey) (i0 : nat) :
  (forall k e, (k < i0)%nat -> nth_error ks k = Some e ->
               strings.ge (qk e) key = false) ->
  (forall e, nth_error ks i0 = Some e -> strings.ge (qk e) key = true) ->
  visited key ks = scan_from key ks i0.
Proof.
  unfold scan_from. revert ks.
  induction i0 as [|i0 IH]; intros [|a ks] Hlo Hhi; simpl; try reflexivity.
  - rewrite (Hhi a eq_refl). reflexivity.
  - rewrite (Hlo 0%nat a); [|lia|reflexivity].
    apply IH.
    + intros k e Hk He. apply (Hlo (S k)); [lia | exact He].
    + intros e He. apply Hhi. exact He.
Qed.

(** On a sound index, [Values] collects the values of [visited]. *)
Lemma Values_visited (t : Tile) (idx : TileIndex) :
  flag_ok idx -> refs_ok idx ->
  exists xs,
    snd (Values t idx) = Ret xs /\
    Forall2 (stored (values idx)) (visited (QuadKey t) (keys (sort idx))) xs.
Proof.
  intros Hflag Hrefs.
  destruct (Values_scan t idx Hrefs) as (i & xs & Hsearch & Hi & Hv & Hxs).
  exists xs. split; [exact Hv|]. rewrite sort_values in Hxs.
  pose proof (sort_key_sorted idx Hflag) as Hsorted.
  set (ks := keys (sort idx)) in *. set (key := QuadKey t) in *.
  destruct (Search_first (len ks)
              (fun i => e <- index ks i ;; Ret (strings.ge (qk e) key)))
    as (i' & Hsearch' & _ & Hlo & Hhi).
  { unfold len. lia. }
  { intros k Hk. destruct (index_Ret ks k Hk) as (e & He & _).
    rewrite He. simpl. eauto. }
  { intros k k' Hk Hk'.
    destruct (index_Ret ks k) as (e & He & Hn); [lia|].
    destruct (index_Ret ks k') as (e' & He' & Hn'); [lia|].
    rewrite He, He'. simpl. intros H.
    assert (Hge : strings.ge (qk e) key = true) by congruence. clear H.
    f_equal. apply ge_true_sle. apply ge_true_sle in Hge.
    eapply sle_trans; [exact Hge|].
    eapply (key_sorted_nth ks (Z.to_nat k) (Z.to_nat k')); eauto. lia. }
  unfold search in Hsearch. fold ks in Hsearch.
  rewrite Hsearch in Hsearch'. inversion Hsearch'; subst i'.
  rewrite (visited_scan_from key ks (Z.to_nat i)); [exact Hxs| |].
  - intros k e Hk He.
    assert (Hk' : 0 <= Z.of_nat k < i) by lia.
    specialize (Hlo _ Hk').
    destruct (index_Ret ks (Z.of_nat k)) as (e0 & He0 & Hn0).
    { unfold len in *. lia. }
    rewrite Nat2Z.id in Hn0. rewrite He0 in Hlo. simpl in Hlo.
    inversion Hlo. congruence.
  - intros e He.
    assert (Hlt : (Z.to_nat i < length ks)%nat).
    { apply nth_error_Some. congruence. }
    assert (Hk' : i <= i < len ks) by (unfold len; lia).
    specialize (Hhi _ Hk').
    destruct (index_Ret ks i) as (e0 & He0 & Hn0); [lia|].
    rewrite He0 in Hhi. simpl in Hhi. inversion Hhi. congruence.
Qed.

Lemma scan_complete (key : string) (e : qkey) (rest : list qkey) (n : qkey) :
  strings.HasPrefix (qk n) key = true ->
  key_sorted rest ->
  Forall (fun x => strings.le key (qk x)) rest ->
  In e rest -> String.prefix key (qk e) = true ->
  In e (scan key n rest).
Proof.
  intros Hn Hs. revert n Hn.
  induction Hs as [|x rest Hs IH Hx]; intros n Hn Hge [].
  - subst x. intros _. simpl. rewrite Hn. left. reflexivity.
  - intros Hpre. simpl. rewrite Hn. right. inversion Hge; subst.
    apply IH; auto.
    unfold strings.HasPrefix. apply (prefix_between key (qk x) (qk e)); auto.
    rewrite Forall_forall in Hx. apply Less_false_sle. apply Hx. assumption.
Qed.

(** Every entry under [key] is visited. *)
Lemma visited_complete (key : string) (e : qkey) (ks : list qkey) :
  key_sorted ks -> In e ks -> String.prefix key (qk e) = true ->
  In e (visited key ks).
Proof.
  intros Hs He Hpre.
  induction Hs as [|a ks Hs IH Ha]; [contradiction|]. cbn [visited].
  destruct (strings.ge (qk a) key) eqn:Hge.
  - apply ge_true_sle in Hge.
    apply scan_complete; auto.
    + unfold strings.HasPrefix.
      destruct He as [->|He]; [exact Hpre|].
      apply (prefix_between key (qk a) (qk e)); auto.
      rewrite Forall_forall in Ha. apply Less_false_sle. apply Ha. exact He.
    + constructor; assumption.
    + constructor; [exact Hge|].
      eapply Forall_impl; [|exact Ha]. intros b Hb.
      apply Less_false_sle in Hb. eapply sle_trans; eassumption.
  - destruct He as [->|He]; [|apply IH; exact He].
    apply prefix_sle, ge_true_sle in Hpre. congruence.
Qed.

(** *** What the calls leave in the index *)

Lemma recorded_sort (cs : list call) (idx : TileIndex) :
  recorded cs idx -> recorded cs (sort idx).
Proof.
  intros [H1 H2]. split.
  - intros t val Hin. destruct (H1 t val Hin) as (e & He & Hk & Hv).
    exists e. rewrite sort_values. repeat split; auto.
    eapply Permutation_in; [apply sort_keys_perm | exact He].
  - intros e He. apply H2.
    eapply Permutation_in; [apply Permutation_sym, sort_keys_perm | exact He].
Qed.

Lemma run_recorded (cs : list call) : recorded cs (run cs).
Proof.
  induction cs as [|c cs IH] using rev_ind.
  - split; [intros t val [] | intros e []].
  - rewrite run_snoc. destruct c as [t0 val0| |]; simpl.
    + destruct IH as [H1 H2]. split.
      * intros t val Hin. apply in_app_or in Hin. simpl.
        destruct Hin as [Hin|[Heq|[]]].
        -- destruct (H1 t val Hin) as (e & He & Hk & Hv).
           exists e. repeat split; auto.
           ++ apply in_or_app. left. exact He.
           ++ apply index_app_old. exact Hv.
        -- inversion Heq; subst. eexists. split; [|split].
           ++ apply in_or_app. right. left. reflexivity.
           ++ reflexivity.
           ++ unfold stored. simpl.
              replace (len (values (run cs) ++ [val]) - 1)
                with (len (values (run cs)))
                by (unfold len; rewrite length_app; simpl; lia).
              apply index_app_last.
      * simpl. intros e He. apply in_app_or in He.
        destruct He as [He|[<-|[]]].
        -- destruct (H2 e He) as (t & val & Hin & Hk).
           exists t, val. split; [apply in_or_app; left; exact Hin | exact Hk].
        -- exists t0, val0. split; [|reflexivity].
           apply in_or_app. right. left. reflexivity.
    + apply recorded_sort in IH. destruct IH as [H1 H2]. split.
      * intros t' val Hin. apply in_app_or in Hin.
        destruct Hin as [Hin|[Heq|[]]]; [auto | discriminate].
      * intros e He. destruct (H2 e He) as (t' & val & Hin & Hk).
        exists t', val. split; [apply in_or_app; left; exact Hin | exact Hk].
    + apply recorded_sort in IH. destruct IH as [H1 H2]. split.
      * intros t' val Hin. apply in_app_or in Hin.
        destruct Hin as [Hin|[Heq|[]]]; [auto | discriminate].
      * intros e He. destruct (H2 e He) as (t' & val & Hin & Hk).
        exists t', val. split; [apply in_or_app; left; exact Hin | exact Hk].
Qed.

Lemma Forall2_In_l {A B : Type} (R : A -> B -> Prop) (l : list A) (l' : list B)
  (a : A) :
  Forall2 R l l' -> In a l -> exists b, In b l' /\ R a b.
Proof.
  induction 1 as [|x y l l' Hxy Hl IH]; intros Hin; [contradiction|].
  destruct Hin as [->|Hin].
  - exists y. split; [left; reflexivity | exact Hxy].
  - destruct (IH Hin) as (b & Hb & HR). exists b. split; [right|]; assumption.
Qed.

(** *** Prefix aggregation *)

(** C4. Every value inserted with [Add] at a tile [t'] is in the result of
    [Values t] for every tile [t] whose quadkey is a prefix of the quadkey
    of [t'] (the tile [t'] itself included), whatever calls were made on
    the index before: [Values] returns, and the value is in what it
    returns. *)
Theorem Values_prefix_aggregation (cs : list call) (t t' : Tile) (val : V) :
  In (CallAdd t' val) cs ->
  String.prefix (QuadKey t) (QuadKey t') = true ->
  exists xs, snd (Values t (run cs)) = Ret xs /\ In val xs.
Proof.
  intros Hin Hpre.
  destruct (run_ok cs) as [Hflag Hrefs].
  destruct (Values_visited t (run cs) Hflag Hrefs) as (xs & Hv & Hxs).
  exists xs. split; [exact Hv|].
  destruct (run_recorded cs) as [Hrec _].
  destruct (Hrec t' val Hin) as (e & He & Hk & Hstored).
  assert (Hvis : In e (visited (QuadKey t) (keys (sort (run cs))))).
  { apply visited_complete.
    - apply sort_key_sorted. exact Hflag.
    - eapply Permutation_in; [apply sort_keys_perm | exact He].
    - rewrite Hk. exact Hpre. }
  destruct (Forall2_In_l _ _ _ _ Hxs Hvis) as (x & Hx & Hex).
  unfold stored in *. rewrite Hstored in Hex. inversion Hex. subst. exact Hx.
Qed.

(** *** TileRange at one zoom level *)

Lemma closing_step (z : nat) (q n : qkey) (rest : list qkey) :
  closing z (q :: n :: rest) =
  (if strings.HasPrefix (qk n) (substring 0 z (qk q))
   then [] else [substring 0 z (qk q)]) ++ closing z (n :: rest).
Proof. reflexivity. Qed.

Lemma while_done {S : Type} (fuel : nat) (cond : S -> bool)
  (body : S -> outcome S) (s : S) :
  cond s = false -> while fuel cond body s = Ret s.
Proof. intros H. destruct fuel; simpl; rewrite H; reflexivity. Qed.

Lemma slice_to_Ret (q : string) (z : Z) :
  0 <= z <= strings.len q ->
  strings.slice_to q z = Ret (substring 0 (Z.to_nat z) q).
Proof.
  intros H. unfold strings.slice_to.
  destruct (z <? 0) eqn:E1; [lia|].
  destruct (strings.len q <? z) eqn:E2; [lia|]. reflexivity.
Qed.

Lemma TileRange_pair_single (z : Z) (q n : string) (tiles : list Tile) :
  0 <= z <= strings.len q ->
  TileRange_pair TileFromQuadKey z z q n tiles =
  Ret (tiles ++
       map TileFromQuadKey
         (if strings.HasPrefix n (substring 0 (Z.to_nat z) q)
          then [] else [substring 0 (Z.to_nat z) q])).
Proof.
  intros Hz. unfold TileRange_pair. cbn [while].
  rewrite Z.leb_refl. replace (z <=? strings.len q) with true
    by (symmetry; apply Z.leb_le; lia).
  cbn [andb]. rewrite (slice_to_Ret q z Hz). cbn [bind].
  destruct (strings.HasPrefix n (substring 0 (Z.to_nat z) q)); cbn [negb];
    (rewrite while_done;
     [cbn [bind map]; rewrite ?app_nil_r; reflexivity
     | replace (z + 1 <=? z) with false by (symmetry; apply Z.leb_gt; lia);
       reflexivity]).
Qed.

Lemma TileRange_last_single (z : Z) (q : string) (tiles : list Tile) :
  0 <= z <= strings.len q ->
  TileRange_last TileFromQuadKey z z q tiles =
  Ret (tiles ++ [TileFromQuadKey (substring 0 (Z.to_nat z) q)]).
Proof.
  intros Hz. unfold TileRange_last. cbn [while].
  rewrite Z.leb_refl. replace (z <=? strings.len q) with true
    by (symmetry; apply Z.leb_le; lia).
  cbn [andb]. rewrite (slice_to_Ret q z Hz). cbn [bind].
  rewrite while_done; [reflexivity|].
  replace (z + 1 <=? z) with false by (symmetry; apply Z.leb_gt; lia).
  reflexivity.
Qed.

(** On an index with an entry whose keys all have length [z] at least,
    [TileRange z z] returns the tiles of [closing]. *)
Lemma TileRange_closing (z : Z) (idx : TileIndex) :
  keys idx <> [] -> 0 <= z ->
  Forall (fun e => z <= strings.len (qk e)) (keys idx) ->
  snd (TileRange z z idx) =
  Ret (map TileFromQuadKey (closing (Z.to_nat z) (keys (sort idx)))).
Proof.
  intros Hne Hz Hlen.
  assert (Hlen' : Forall (fun e => z <= strings.len (qk e)) (keys (sort idx))).
  { eapply Permutation_Forall; [apply sort_keys_perm | exact Hlen]. }
  assert (Hne' : keys (sort idx) <> []).
  { intros E. apply Hne. eapply Permutation_nil.
    rewrite <- E. apply Permutation_sym, sort_keys_perm. }
  unfold tiles.TileRange. cbv zeta. cbn [snd].
  set (ks := keys (sort idx)) in *. clearbody ks. clear Hne Hlen.
  assert (Hpos : 1 <= len ks).
  { unfold len. destruct ks; [congruence|]. simpl. lia. }
  rewrite Forall_forall in Hlen'.
  loop_with
    (fun s : Z * list Tile =>
       0 <= fst s <= len ks - 1 /\
       map TileFromQuadKey (closing (Z.to_nat z) ks) =
       snd s ++ map TileFromQuadKey
                  (closing (Z.to_nat z) (skipn (Z.to_nat (fst s)) ks)))
    (fun s : Z * list Tile => (length ks - Z.to_nat (fst s))%nat)
    as ([i tiles] & Hw & [Hi Hinv] & Hc).
  - intros [i tiles] [Hi Hinv] Hc. cbn [fst snd] in *. apply Z.ltb_lt in Hc.
    destruct (index_Ret ks i) as (q & Hq & Hnq); [lia|].
    destruct (index_Ret ks (i + 1)) as (n & Hn & Hnn); [lia|].
    rewrite Hq, Hn. cbn [bind].
    rewrite TileRange_pair_single.
    2:{ split; [lia|]. apply Hlen'. eapply nth_error_In. exact Hnq. }
    cbn [bind]. eexists. split; [reflexivity|]. cbn [fst snd].
    split; [split; [lia|] | unfold len in *; lia].
    rewrite Hinv. rewrite <- app_assoc. f_equal.
    replace (Z.to_nat (i + 1)) with (S (Z.to_nat i)) in * by lia.
    rewrite (skipn_nth_error ks (Z.to_nat i) q Hnq).
    rewrite (skipn_nth_error ks (S (Z.to_nat i)) n Hnn).
    rewrite closing_step, map_app. reflexivity.
  - cbn [fst snd]. split; [lia|]. reflexivity.
  - cbn [fst]. lia.
  - rewrite Hw. cbn [bind fst snd] in *. apply Z.ltb_ge in Hc.
    assert (i = len ks - 1) as -> by lia.
    destruct (index_Ret ks (len ks - 1)) as (q & Hq & Hnq); [lia|].
    rewrite Hq. cbn [bind].
    rewrite TileRange_last_single.
    2:{ split; [lia|]. apply Hlen'. eapply nth_error_In. exact Hnq. }
    f_equal. rewrite Hinv. f_equal.
    rewrite (skipn_nth_error ks _ q Hnq).
    rewrite skipn_all2 by (unfold len; lia). reflexivity.
Qed.

Lemma closing_In (z : nat) (ks : list qkey) (p : string) :
  Forall (fun e => (z <= String.length (qk e))%nat) ks ->
  (In p (closing z ks) <-> exists e, In e ks /\ p = substring 0 z (qk e)).
Proof.
  induction ks as [|q [|n rest] IH]; intros Hlen.
  - simpl. split; [tauto | intros (e & [] & _)].
  - simpl. split.
    + intros [<-|[]]. exists q. auto.
    + intros (e & [<-|[]] & ->). auto.
  - inversion Hlen as [|? ? Hq Hrest]; subst. specialize (IH Hrest).
    rewrite closing_step, in_app_iff, IH. split.
    + intros [H|(e & He & ->)].
      * destruct (strings.HasPrefix (qk n) (substring 0 z (qk q)));
          [contradiction|]. destruct H as [<-|[]]. exists q. split; [left|]; auto.
      * exists e. split; [right|]; auto.
    + intros (e & [Heq|He] & ->).
      * subst e.
        destruct (strings.HasPrefix (qk n) (substring 0 z (qk q))) eqn:E.
        -- right. exists n. split; [left; reflexivity|].
           unfold strings.HasPrefix in E. apply substring_prefix in E.
           rewrite length_substring in E by exact Hq. symmetry. exact E.
        -- left. left. reflexivity.
      * right. exists e. auto.
Qed.

Lemma closing_NoDup (z : nat) (ks : list qkey) :
  key_sorted ks ->
  Forall (fun e => (z <= String.length (qk e))%nat) ks ->
  NoDup (closing z ks).
Proof.
  induction ks as [|q [|n rest] IH]; intros Hs Hlen.
  - constructor.
  - simpl. constructor; [intros [] | constructor].
  - inversion Hlen as [|? ? Hq Hrest]; subst.
    apply key_sorted_inv in Hs. destruct Hs as [Hs Hqle].
    specialize (IH Hs Hrest). rewrite closing_step.
    destruct (strings.HasPrefix (qk n) (substring 0 z (qk q))) eqn:E;
      [exact IH|].
    cbn [app]. constructor; [|exact IH].
    intros Hin. apply closing_In in Hin; [|exact Hrest].
    destruct Hin as (e & He & Hp).
    assert (Hpe : String.prefix (substring 0 z (qk q)) (qk e) = true).
    { rewrite Hp. apply prefix_substring. }
    unfold strings.HasPrefix in E.
    enough (String.prefix (substring 0 z (qk q)) (qk n) = true) by congruence.
    apply (prefix_between _ (qk n) (qk e) Hpe).
    + eapply sle_trans; [apply prefix_sle, prefix_substring|].
      rewrite Forall_forall in Hqle. apply Hqle. left. reflexivity.
    + destruct He as [->|He]; [apply sle_refl|].
      apply key_sorted_inv in Hs. destruct Hs as [_ Hn].
      rewrite Forall_forall in Hn. apply Hn. exact He.
Qed.

(** C5. After calls that inserted at least one entry, and for a zoom [z]
    (not negative) that exceeds the length of no inserted key,
    [TileRange z z] returns, and what it sends are the tiles of a list of
    quadkeys without repetition whose members are exactly the length-[z]
    prefixes of the inserted keys: each distinct prefix once, none left
    out, nothing else. *)
Theorem TileRange_single_zoom_coverage (cs : list call) (z : Z) :
  (exists t val, In (CallAdd t val) cs) ->
  0 <= z ->
  (forall t val, In (CallAdd t val) cs -> z <= strings.len (QuadKey t)) ->
  exists ps,
    snd (TileRange z z (run cs)) = Ret (map TileFromQuadKey ps) /\
    NoDup ps /\
    forall p, In p ps <->
      exists t val, In (CallAdd t val) cs /\
                    p = substring 0 (Z.to_nat z) (QuadKey t).
Proof.
  intros (t0 & val0 & Hin0) Hz Hlen.
  destruct (run_recorded cs) as [Hrec1 Hrec2].
  destruct (run_ok cs) as [Hflag _].
  assert (Hkeys : Forall (fun e => z <= strings.len (qk e)) (keys (run cs))).
  { apply Forall_forall. intros e He.
    destruct (Hrec2 e He) as (t & val & Hin & ->). eapply Hlen. exact Hin. }
  assert (Hnat : Forall (fun e => (Z.to_nat z <= String.length (qk e))%nat)
                   (keys (sort (run cs)))).
  { eapply Permutation_Forall; [apply sort_keys_perm|].
    eapply Forall_impl; [|exact Hkeys]. intros e He.
    unfold strings.len in He. lia. }
  exists (closing (Z.to_nat z) (keys (sort (run cs)))). split; [|split].
  - apply TileRange_closing; auto.
    destruct (Hrec1 t0 val0 Hin0) as (e & He & _). intros E.
    rewrite E in He. contradiction.
  - apply closing_NoDup; [apply sort_key_sorted; exact Hflag | exact Hnat].
  - intros p. rewrite (closing_In _ _ _ Hnat). split.
    + intros (e & He & ->).
      destruct (Hrec2 e) as (t & val & Hin & ->).
      { eapply Permutation_in; [apply Permutation_sym, sort_keys_perm | exact He]. }
      eauto.
    + intros (t & val & Hin & ->).
      destruct (Hrec1 t val Hin) as (e & He & <- & _).
      exists e. split; [|reflexivity].
      eapply Permutation_in; [apply sort_keys_perm | exact He].
Qed.

(** *** Fuel *)

Lemma TileRange_pair_fuel (zmin zmax : Z) (q n : string) (tiles : list Tile) :
  TileRange_pair TileFromQuadKey zmin zmax q n tiles <> OutOfFuel.
Proof.
  unfold TileRange_pair.
  loop_panic_with
    (fun _ : Z * list Tile => True)
    (fun s : Z * list Tile =>
       if fst s <? 0 then 1%nat else Z.to_nat (strings.len q + 1 - fst s)).
  - intros [z ts] _ Hc. cbn [fst].
    apply andb_prop in Hc. destruct Hc as [_ Hc]. apply Z.leb_le in Hc.
    unfold strings.slice_to.
    destruct (z <? 0) eqn:E; cbn [orb bind]; [lia|].
    destruct (strings.len q <? z) eqn:E'; [lia|]. cbn [bind].
    apply Z.ltb_ge in E.
    destruct (negb _); (split; [exact I|]); cbn [fst];
      (destruct (z + 1 <? 0) eqn:E''; [lia|]); lia.
  - exact I.
  - cbn [fst]. unfold strings.len.
    destruct (zmin <? 0) eqn:E; [lia | apply Z.ltb_ge in E; lia].
  - destruct (while _ _ _ _) as [[z' tiles']| |]; simpl;
      [discriminate | discriminate | tauto].
Qed.

Lemma TileRange_last_fuel (zmin zmax : Z) (q : string) (tiles : list Tile) :
  TileRange_last TileFromQuadKey zmin zmax q tiles <> OutOfFuel.
Proof.
  unfold TileRange_last.
  loop_panic_with
    (fun _ : Z * list Tile => True)
    (fun s : Z * list Tile =>
       if fst s <? 0 then 1%nat else Z.to_nat (strings.len q + 1 - fst s)).
  - intros [z ts] _ Hc. cbn [fst].
    apply andb_prop in Hc. destruct Hc as [_ Hc]. apply Z.leb_le in Hc.
    unfold strings.slice_to.
    destruct (z <? 0) eqn:E; cbn [orb bind]; [lia|].
    destruct (strings.len q <? z) eqn:E'; [lia|]. cbn [bind].
    apply Z.ltb_ge in E. split; [exact I|]. cbn [fst].
    destruct (z + 1 <? 0) eqn:E''; lia.
  - exact I.
  - cbn [fst]. unfold strings.len.
    destruct (zmin <? 0) eqn:E; [lia | apply Z.ltb_ge in E; lia].
  - destruct (while _ _ _ _) as [[z' tiles']| |]; simpl;
      [discriminate | discriminate | tauto].
Qed.

(** No operation stops for want of fuel: on every index and for all
    arguments, [Values] and [TileRange] return or panic. *)
Lemma operations_have_fuel (idx : TileIndex) (t : Tile) (zmin zmax : Z) :
  snd (Values t idx) <> OutOfFuel /\
  snd (TileRange zmin zmax idx) <> OutOfFuel.
Proof.
  unfold tiles.Values, tiles.TileRange. cbv zeta. cbn [snd].
  set (ks := keys (sort idx)). set (vs := values (sort idx)). split.
  - destruct (Search_range (len ks)
                (fun i => e <- index ks i ;; Ret (strings.ge (qk e) (QuadKey t))))
      as (i0 & Hsearch & Hi0).
    { unfold len. lia. }
    { intros k Hk. destruct (index_Ret ks k Hk) as (e & He & _).
      rewrite He. simpl. eauto. }
    unfold search. fold ks. rewrite Hsearch. cbn [bind].
    destruct (len ks <=? i0) eqn:Hend; [discriminate|]. apply Z.leb_gt in Hend.
    destruct (index_Ret ks i0) as (n0 & Hn0 & _); [lia|].
    rewrite Hn0. cbn [bind].
    loop_panic_with
      (fun s : Z * qkey * list V => 0 <= fst (fst s) <= len ks)
      (fun s : Z * qkey * list V => (length ks - Z.to_nat (fst (fst s)))%nat).
    + intros [[i n] vals] Hi Hc. cbn [fst] in *.
      apply andb_prop in Hc. destruct Hc as [Hc _]. apply Z.ltb_lt in Hc.
      destruct (index_Ret ks i) as (e & He & _); [lia|].
      rewrite He. cbn [bind].
      pose proof (index_fuel vs (v e)) as Hf.
      destruct (index vs (v e)); cbn [bind fst];
        [unfold len in *; lia | unfold len in *; lia | congruence].
    + cbn [fst]. lia.
    + cbn [fst]. lia.
    + destruct (while _ _ _ _) as [[[i n] vals]| |]; simpl;
        [discriminate | discriminate | tauto].
  - loop_panic_with
      (fun s : Z * list Tile => 0 <= fst s)
      (fun s : Z * list Tile => (length ks - Z.to_nat (fst s))%nat).
    + intros [i tiles] Hi Hc. cbn [fst] in *. apply Z.ltb_lt in Hc.
      destruct (index_Ret ks i) as (q & Hq & _); [lia|].
      destruct (index_Ret ks (i + 1)) as (n & Hn & _); [lia|].
      rewrite Hq, Hn. cbn [bind].
      pose proof (TileRange_pair_fuel zmin zmax (qk q) (qk n) tiles) as Hp.
      destruct (TileRange_pair _ _ _ _ _ _) as [ts| |]; cbn [bind fst];
        [unfold len in *; lia | unfold len in *; lia | congruence].
    + cbn [fst]. lia.
    + cbn [fst]. lia.
    + destruct (while _ _ _ _) as [[i tiles]| |]; cbn [bind];
        [|discriminate|tauto]. intros _.
      pose proof (index_fuel ks (len ks - 1)) as Hf.
      destruct (index ks (len ks - 1)) as [q| |]; cbn [bind];
        [apply TileRange_last_fuel | discriminate | congruence].
Qed.

(** *** The sorted flag *)

(** C8. The sorted flag is a faithful witness of sortedness, and every
    operation keeps it so: the new index has it, every call preserves it,
    hence after any sequence of calls a true flag means that the entries
    are in ascending order of their keys; [Add] appends its entry and
    leaves the flag false; and after [sort] the entries are in ascending
    order and the flag is true. *)
Theorem sorted_flag_faithful :
  flag_ok (empty : TileIndex) /\
  (forall (idx : TileIndex) (c : call), flag_ok idx -> flag_ok (after idx c)) /\
  (forall cs : list call,
     sorted (run cs) = true -> key_sorted (keys (run cs))) /\
  (forall (idx : TileIndex) (t : Tile) (val : V),
     sorted (Add t val idx) = false /\
     exists e, keys (Add t val idx) = keys idx ++ [e]) /\
  (forall idx : TileIndex,
     flag_ok idx ->
     key_sorted (keys (sort idx)) /\ sorted (sort idx) = true) /\
  (forall cs : list call,
     key_sorted (keys (sort (run cs))) /\ sorted (sort (run cs)) = true).
Proof.
  split; [apply flag_ok_empty|].
  split; [apply flag_ok_after|].
  split; [intros cs; apply (run_ok cs)|].
  split; [intros idx t val; split; [reflexivity | eexists; reflexivity]|].
  split.
  - intros idx H. split; [apply sort_key_sorted; exact H | apply sort_sorted_flag].
  - intros cs. split; [apply sort_key_sorted, run_ok | apply sort_sorted_flag].
Qed.

(** *** Repeated reads *)

Lemma fst_do_read (r : read) (idx : TileIndex) : fst (do_read r idx) = sort idx.
Proof. destruct r; reflexivity. Qed.

Lemma Values_sort (t : Tile) (idx : TileIndex) :
  Values t (sort idx) = Values t idx.
Proof. unfold tiles.Values. cbv zeta. rewrite sort_idem. reflexivity. Qed.

Lemma TileRange_sort (zmin zmax : Z) (idx : TileIndex) :
  TileRange zmin zmax (sort idx) = TileRange zmin zmax idx.
Proof. unfold tiles.TileRange. cbv zeta. rewrite sort_idem. reflexivity. Qed.

Lemma do_read_sort (r : read) (idx : TileIndex) :
  do_read r (sort idx) = do_read r idx.
Proof.
  destruct r; unfold tiles.do_read.
  - rewrite Values_sort. reflexivity.
  - rewrite TileRange_sort. reflexivity.
Qed.

Lemma do_read_after_reads (r : read) (rs : list read) (idx : TileIndex) :
  do_read r (after_reads idx rs) = do_read r idx.
Proof.
  revert idx. induction rs as [|r0 rs IH]; intros idx; [reflexivity|].
  unfold tiles.after_reads. cbn [fold_left].
  fold (after_reads (fst (do_read r0 idx)) rs).
  rewrite IH, fst_do_read. apply do_read_sort.
Qed.

(** C9. A read operation ([Values] or [TileRange]) made after any number
    of earlier reads, with no [Add] in between, leaves the same index and
    gives the same answer as it does when it is made first; and once a
    read has been made, every further read leaves the index, and so the
    order of its entries, as it is. *)
Theorem reads_repeatable (idx : TileIndex) (rs : list read) (r : read) :
  do_read r (after_reads idx rs) = do_read r idx /\
  (forall r' : read,
     let idx1 := fst (do_read r idx) in
     sorted idx1 = true /\ fst (do_read r' idx1) = idx1).
Proof.
  split; [apply do_read_after_reads|].
  intros r' idx1. subst idx1. rewrite !fst_do_read.
  split; [apply sort_sorted_flag | apply sort_idem].
Qed.

(** *** References into the value store *)

(** C10. Every operation keeps the references of the entries inside the
    value store: the new index has the property, every call preserves it,
    so it holds after any sequence of calls; with it [Values] returns a
    result and does not panic; and [Add] appends the value first and gives
    the new entry the index of that value. *)
Theorem value_refs_in_range :
  refs_ok (empty : TileIndex) /\
  (forall (idx : TileIndex) (c : call), refs_ok idx -> refs_ok (after idx c)) /\
  (forall cs : list call, refs_ok (run cs)) /\
  (forall (idx : TileIndex) (t : Tile),
     refs_ok idx -> exists xs, snd (Values t idx) = Ret xs) /\
  (forall (cs : list call) (t : Tile),
     exists xs, snd (Values t (run cs)) = Ret xs) /\
  (forall (idx : TileIndex) (t : Tile) (val : V),
     exists e,
       keys (Add t val idx) = keys idx ++ [e] /\
       values (Add t val idx) = values idx ++ [val] /\
       v e = len (values idx) /\
       index (values (Add t val idx)) (v e) = Ret val).
Proof.
  split; [apply refs_ok_empty|].
  split; [apply refs_ok_after|].
  split; [intros cs; apply (run_ok cs)|].
  split; [intros idx t H; apply Values_total; exact H|].
  split; [intros cs t; apply Values_total, run_ok|].
  intros idx t val. eexists. split; [reflexivity|]. split; [reflexivity|].
  cbn [v values tiles.Add].
  assert (E : len (values idx ++ [val]) - 1 = len (values idx)).
  { unfold len. rewrite length_app. simpl. lia. }
  rewrite E. split; [reflexivity | apply index_app_last].
Qed.

(** *** The empty index *)

(** C2. On a new index, with no entry, [Values] returns the empty
    sequence for every tile, but [TileRange] does not return an empty
    sequence: the goroutine indexes [idx.keys[len(idx.keys)-1]], that is
    [idx.keys[-1]], and panics, for every [zmin] and [zmax]. *)
Theorem TileRange_empty_panics (zmin zmax : Z) (t : Tile) :
  snd (Values t (empty : TileIndex)) = Ret [] /\
  snd (TileRange zmin zmax (empty : TileIndex)) = Panic IndexOutOfRange.
Proof.
  unfold tiles.Values, tiles.TileRange, sort, search. cbv zeta.
  cbn [sorted empty negb keys values snd]. rewrite sort_Sort_nil.
  split; reflexivity.
Qed.

Lemma sort_presorted (idx : TileIndex) (ks : list qkey) :
  sorted idx = false ->
  StronglySorted (fun a b => Less a b = true) ks ->
  Permutation ks (keys idx) ->
  sort idx = {| sorted := true; keys := ks; values := values idx |}.
Proof.
  intros Hf Hs Hp. unfold sort. rewrite Hf. simpl.
  rewrite (sort_Sort_unique (keys idx) ks Hs Hp). reflexivity.
Qed.

End TileIndexFacts.

(** ** The scenario *)

Section Scenario.

Import SortFacts.
Local Open Scope string_scope.

(** Whatever algorithm [sort.Sort] runs. *)
Context {sorter : Sorter}.

Lemma scenario_sort :
  sort scenario =
  {| sorted := true;
     keys := [ {| qk := "120"; v := 0 |}; {| qk := "1201"; v := 1 |};
               {| qk := "13"; v := 2 |} ];
     values := ["A"; "B"; "C"] |}.
Proof.
  apply (sort_presorted scenario); [reflexivity | | reflexivity].
  repeat constructor.
Qed.

(** C3. In the scenario [Values] returns ["A"], ["B"] and also ["C"] for
    quadkey [120], and ["B"] and also ["C"] for quadkey [1201]: the value
    at [13], which neither quadkey is a prefix of, is collected too.  For
    quadkey [13] it returns ["C"] and for quadkey [2] nothing. *)
Theorem scenario_Values :
  snd (Values QuadKeyOf "120" scenario) = Ret ["A"; "B"; "C"] /\
  snd (Values QuadKeyOf "1201" scenario) = Ret ["B"; "C"] /\
  snd (Values QuadKeyOf "13" scenario) = Ret ["C"] /\
  snd (Values QuadKeyOf "2" scenario) = Ret [].
Proof.
  rewrite <- (Values_sort QuadKeyOf "120" scenario).
  rewrite <- (Values_sort QuadKeyOf "1201" scenario).
  rewrite <- (Values_sort QuadKeyOf "13" scenario).
  rewrite <- (Values_sort QuadKeyOf "2" scenario).
  rewrite scenario_sort. repeat split; vm_compute; reflexivity.
Qed.

(** C6. In the scenario [TileRange 1 2] sends three tiles: the tile of
    quadkey [12], the tile of quadkey [1] and the tile of quadkey [13],
    each once, and no tile of quadkey [120] or [1201]. *)
Theorem scenario_TileRange {Tile : Type} (TileFromQuadKey : string -> Tile) :
  snd (TileRange TileFromQuadKey 1 2 scenario) =
  Ret [TileFromQuadKey "12"; TileFromQuadKey "1"; TileFromQuadKey "13"].
Proof.
  rewrite <- (TileRange_sort TileFromQuadKey 1 2 scenario).
  rewrite scenario_sort. vm_compute. reflexivity.
Qed.

(** C1. With ["A"] at quadkey [1] and ["B"] at quadkey [2], [Values] for
    quadkey [1] returns ["B"] too, though [1] is not a prefix of [2]: the
    loop tests the prefix on the entry it collected before, not on the one
    it collects. *)
Theorem Values_collects_one_past :
  String.prefix "1" "2" = false /\
  snd (Values QuadKeyOf "1"
         (Add QuadKeyOf "2" "B" (Add QuadKeyOf "1" "A" empty)))
  = Ret ["A"; "B"].
Proof.
  split; [reflexivity|].
  rewrite <- (Values_sort QuadKeyOf "1").
  rewrite (sort_presorted _ [ {| qk := "1"; v := 0 |}; {| qk := "2"; v := 1 |} ]);
    [vm_compute; reflexivity | reflexivity | repeat constructor | reflexivity].
Qed.

End Scenario.

(** ** Insertion order *)

Section InsertionOrder.

Import SortFacts.
Local Open Scope string_scope.

(** Whatever algorithm [sort.Sort] runs. *)
Context {sorter : Sorter}.

(** One entry of key [1] and two of key [2]: the sort leaves the two
    entries of key [2] in one order or the other. *)
Lemma sort_Sort_one_two_two :
  let k0 := {| qk := "1"; v := 0 |} in
  let k1 := {| qk := "2"; v := 1 |} in
  let k2 := {| qk := "2"; v := 2 |} in
  sort_Sort [k0; k1; k2] = [k0; k1; k2] \/
  sort_Sort [k0; k1; k2] = [k0; k2; k1].
Proof.
  intros k0 k1 k2.
  destruct (sorted_perm_head k0 [k1; k2] (sort_Sort [k0; k1; k2]))
    as (l0 & -> & Hp).
  - repeat constructor.
  - apply sort_Sort_sorted.
  - apply sort_Sort_perm.
  - apply Permutation_length_2_inv in Hp. destruct Hp as [->| ->]; auto.
Qed.

(** C7. The same three pairs inserted in two orders give different sets of
    values: with ["A"] at quadkey [1] and ["B"] and ["C"] both at quadkey
    [2], [Values] for quadkey [1] returns ["A"] and the value of the entry
    the sort has put next, which is ["B"] after one insertion order and
    ["C"] after the other, whatever the sort does with equal keys. *)
Theorem Values_depends_on_insertion_order :
  let idx1 :=
    Add QuadKeyOf "2" "C" (Add QuadKeyOf "2" "B" (Add QuadKeyOf "1" "A" empty)) in
  let idx2 :=
    Add QuadKeyOf "2" "B" (Add QuadKeyOf "2" "C" (Add QuadKeyOf "1" "A" empty)) in
  Permutation [("1", "A"); ("2", "B"); ("2", "C")]
              [("1", "A"); ("2", "C"); ("2", "B")] /\
  ((snd (Values QuadKeyOf "1" idx1) = Ret ["A"; "B"] /\
    snd (Values QuadKeyOf "1" idx2) = Ret ["A"; "C"]) \/
   (snd (Values QuadKeyOf "1" idx1) = Ret ["A"; "C"] /\
    snd (Values QuadKeyOf "1" idx2) = Ret ["A"; "B"])).
Proof.
  intros idx1 idx2. split; [apply perm_skip, perm_swap|].
  rewrite <- (Values_sort QuadKeyOf "1" idx1).
  rewrite <- (Values_sort QuadKeyOf "1" idx2).
  assert (S1 : sort idx1 =
               {| sorted := true;
                  keys := sort_Sort [ {| qk := "1"; v := 0 |};
                                      {| qk := "2"; v := 1 |};
                                      {| qk := "2"; v := 2 |} ];
                  values := ["A"; "B"; "C"] |}) by reflexivity.
  assert (S2 : sort idx2 =
               {| sorted := true;
                  keys := sort_Sort [ {| qk := "1"; v := 0 |};
                                      {| qk := "2"; v := 1 |};
                                      {| qk := "2"; v := 2 |} ];
                  values := ["A"; "C"; "B"] |}) by reflexivity.
  rewrite S1, S2.
  destruct sort_Sort_one_two_two as [E|E]; rewrite E; [left|right];
    split; vm_compute; reflexivity.
Qed.

End InsertionOrder.

(** ** Instances of the general theorems *)

Lemma Values_prefix_aggregation_witness :
  exists xs,
    snd (Values (sorter := insertion_sorter) QuadKeyOf "120"%string
           (run QuadKeyOf QuadKeyOf
              [CallAdd "120" "A"; CallAdd "1201" "B"]%string)) = Ret xs /\
    In "B"%string xs.
Proof.
  apply (Values_prefix_aggregation QuadKeyOf QuadKeyOf
           [CallAdd "120" "A"; CallAdd "1201" "B"]%string
           "120"%string "1201"%string "B"%string).
  - simpl. right. left. reflexivity.
  - reflexivity.
Defined.

Lemma TileRange_single_zoom_coverage_witness :
  exists ps,
    snd (TileRange (sorter := insertion_sorter) QuadKeyOf 2 2
           (run QuadKeyOf QuadKeyOf
              [CallAdd "120" "A"; CallAdd "1201" "B"; CallAdd "13" "C"]%string))
    = Ret (map QuadKeyOf ps) /\
    NoDup ps /\
    forall p, In p ps <->
      exists t val,
        In (CallAdd t val)
          [CallAdd "120" "A"; CallAdd "1201" "B"; CallAdd "13" "C"]%string /\
        p = substring 0 (Z.to_nat 2) (QuadKeyOf t).
Proof.
  apply (TileRange_single_zoom_coverage QuadKeyOf QuadKeyOf
           [CallAdd "120" "A"; CallAdd "1201" "B"; CallAdd "13" "C"]%string 2).
  - exists "120"%string, "A"%string. simpl. left. reflexivity.
  - lia.
  - intros t val H. simpl in H.
    destruct H as [H|[H|[H|[]]]]; inversion H; subst; vm_compute; discriminate.
Defined.

(** * Further properties of the index *)

Section TileIndexContents.

Import GoFacts StringFacts SortFacts.

Context {Tile V : Type}.
Variable QuadKey : Tile -> string.
Variable TileFromQuadKey : string -> Tile.
Context {sorter : Sorter}.

Local Abbreviation TileIndex := (@TileIndex V).
Local Abbreviation call := (@call Tile V).
Local Abbreviation Add := (@Add Tile V QuadKey).
Local Abbreviation Values := (@Values Tile V QuadKey sorter).
Local Abbreviation TileRange := (@TileRange Tile V TileFromQuadKey sorter).
Local Abbreviation after := (@after Tile V QuadKey TileFromQuadKey sorter).
Local Abbreviation run := (@run Tile V QuadKey TileFromQuadKey sorter).
Local Abbreviation inserted := (@inserted Tile V QuadKey).

(** ** What the index holds *)

Lemma numbered_from_app (i : nat) (l l' : list string) :
  numbered_from i (l ++ l') =
  numbered_from i l ++ numbered_from (i + length l) l'.
Proof.
  revert i. induction l as [|k l IH]; intros i; simpl.
  - rewrite Nat.add_0_r. reflexivity.
  - rewrite IH. do 3 f_equal. lia.
Qed.

Lemma numbered_from_In (i : nat) (ks : list string) (e : qkey) :
  In e (numbered_from i ks) ->
  exists j, nth_error ks j = Some (qk e) /\ v e = Z.of_nat (i + j).
Proof.
  revert i. induction ks as [|k ks IH]; intros i; simpl; [tauto|].
  intros [<-|H].
  - exists 0%nat. simpl. split; [reflexivity | f_equal; lia].
  - destruct (IH _ H) as (j & Hj & Hv). exists (S j). simpl.
    split; [exact Hj | rewrite Hv; f_equal; lia].
Qed.

Lemma inserted_snoc (cs : list call) (c : call) :
  inserted (cs ++ [c]) =
  inserted cs ++ match c with
                 | CallAdd t val => [(QuadKey t, val)]
                 | _ => []
                 end.
Proof.
  unfold tiles.inserted. rewrite flat_map_app. simpl.
  rewrite app_nil_r. reflexivity.
Qed.

Lemma inserted_In (cs : list call) (k : string) (val : V) :
  In (k, val) (inserted cs) <->
  exists t, In (CallAdd t val) cs /\ QuadKey t = k.
Proof.
  unfold tiles.inserted. rewrite in_flat_map. split.
  - intros ([t' val'| |] & Hc & Hin); simpl in Hin; try contradiction.
    destruct Hin as [Heq|[]]. inversion Heq; subst. eauto.
  - intros (t & Hc & <-). exists (CallAdd t val). split; [exact Hc|].
    left. reflexivity.
Qed.

(** X1. After any sequence of calls the value store holds the inserted
    values in the order of their insertion, and the entries are, in some
    order, the inserted keys, the [i]-th of them with value index [i]:
    nothing is lost, duplicated or overwritten, by [Add] or by a read. *)
Theorem index_holds_inserted (cs : list call) :
  values (run cs) = map snd (inserted cs) /\
  Permutation (keys (run cs)) (numbered_from 0 (map fst (inserted cs))).
Proof.
  induction cs as [|c cs [IHv IHk]] using rev_ind.
  - split; reflexivity.
  - rewrite (run_snoc QuadKey TileFromQuadKey), inserted_snoc.
    rewrite !map_app, numbered_from_app.
    destruct c as [t val| |]; simpl.
    + split; [rewrite IHv; reflexivity|].
      apply Permutation_app; [exact IHk|].
      rewrite ?length_map.
      replace (len (values (run cs) ++ [val]) - 1)
        with (Z.of_nat (length (inserted cs))); [reflexivity|].
      unfold len. rewrite length_app, IHv, length_map. simpl. lia.
    + rewrite !app_nil_r, sort_values. split; [exact IHv|].
      rewrite <- IHk. apply Permutation_sym, sort_keys_perm.
    + rewrite !app_nil_r, sort_values. split; [exact IHv|].
      rewrite <- IHk. apply Permutation_sym, sort_keys_perm.
Qed.


(** ** What Values returns *)

Lemma no_prefix_above (key : string) (x : qkey) (rest : list qkey) :
  key_sorted (x :: rest) -> strings.le key (qk x) ->
  strings.HasPrefix (qk x) key = false ->
  filter (fun e => strings.HasPrefix (qk e) key) (x :: rest) = [].
Proof.
  intros Hs Hle Hx. apply key_sorted_inv in Hs. destruct Hs as [_ Hall].
  cbn [filter]. rewrite Hx.
  induction rest as [|y rest IH]; [reflexivity|].
  inversion Hall as [|? ? Hy Hrest]; subst. cbn [filter].
  destruct (strings.HasPrefix (qk y) key) eqn:E; [|apply IH; exact Hrest].
  unfold strings.HasPrefix in *.
  rewrite (prefix_between key (qk x) (qk y) E Hle Hy) in Hx. discriminate.
Qed.

Lemma scan_sorted (key : string) (rest : list qkey) (n : qkey) :
  key_sorted rest ->
  Forall (fun x => strings.le key (qk x)) rest ->
  strings.HasPrefix (qk n) key = true ->
  scan key n rest =
  filter (fun e => strings.HasPrefix (qk e) key) rest ++
  firstn 1 (filter (fun e => strings.ge (qk e) key &&
                             negb (strings.HasPrefix (qk e) key)) rest).
Proof.
  intros Hs. revert n.
  induction rest as [|x rest IH]; intros n Hge Hn; [reflexivity|].
  inversion Hge as [|? ? Hx Hrest]; subst.
  cbn [scan]. rewrite Hn.
  destruct (strings.HasPrefix (qk x) key) eqn:E.
  - cbn [filter]. rewrite E, andb_false_r. cbn [app]. f_equal.
    apply IH; auto. apply key_sorted_inv in Hs. tauto.
  - rewrite (no_prefix_above key x rest Hs Hx E).
    cbn [filter]. rewrite E. apply ge_true_sle in Hx. rewrite Hx.
    cbn [andb negb firstn app]. f_equal.
    apply scan_stop. right. exact E.
Qed.

(** On sorted entries the loop of [Values] collects [collected]. *)
Lemma visited_collected (key : string) (ks : list qkey) :
  key_sorted ks -> visited key ks = collected key ks.
Proof.
  unfold collected. induction ks as [|a ks IH]; intros Hs; [reflexivity|].
  cbn [visited].
  pose proof (key_sorted_inv a ks Hs) as [Hs' Hall].
  destruct (strings.ge (qk a) key) eqn:Hge.
  - apply ge_true_sle in Hge.
    destruct (strings.HasPrefix (qk a) key) eqn:E.
    + rewrite (scan_sorted key (a :: ks) a Hs); [|constructor|exact E].
      * cbn [filter]. rewrite E. reflexivity.
      * exact Hge.
      * eapply Forall_impl; [|exact Hall]. intros b Hb.
        eapply sle_trans; eassumption.
    + rewrite (no_prefix_above key a ks Hs Hge E).
      apply scan_stop. right. exact E.
  - cbn [filter].
    assert (E : strings.HasPrefix (qk a) key = false).
    { destruct (strings.HasPrefix (qk a) key) eqn:E; [|reflexivity].
      apply prefix_sle, ge_true_sle in E. congruence. }
    rewrite E, Hge. cbn [andb]. apply IH. exact Hs'.
Qed.




Lemma Values_collected_stored (t : Tile) (cs : list call) :
  exists xs,
    snd (Values t (run cs)) = Ret xs /\
    Forall2 (stored (values (run cs)))
      (collected (QuadKey t) (keys (sort (run cs)))) xs.
Proof.
  destruct (run_ok QuadKey TileFromQuadKey cs) as [Hflag Hrefs].
  destruct (Values_visited QuadKey t (run cs) Hflag Hrefs) as (xs & Hv & Hxs).
  exists xs. split; [exact Hv|].
  rewrite <- visited_collected; [exact Hxs|].
  apply sort_key_sorted. exact Hflag.
Qed.


Lemma no_entry_under (cs : list call) (P : string -> bool) :
  (forall t val, In (CallAdd t val) cs -> P (QuadKey t) = false) ->
  filter (fun e => P (qk e)) (keys (sort (run cs))) = [].
Proof.
  intros H.
  destruct (filter (fun e => P (qk e)) (keys (sort (run cs)))) as [|e l] eqn:E;
    [reflexivity|].
  assert (He : In e (e :: l)) by (left; reflexivity).
  rewrite <- E in He. apply filter_In in He. destruct He as [He HP].
  destruct (run_recorded QuadKey TileFromQuadKey cs) as [_ Hrec].
  destruct (Hrec e) as (t & val & Hin & Hk).
  { eapply Permutation_in; [apply Permutation_sym, sort_keys_perm | exact He]. }
  rewrite Hk, (H t val Hin) in HP. discriminate.
Qed.

(** X3. When no inserted key has the quadkey of [t] as a prefix,
    [Values t] returns the empty sequence: an absent tile is not an
    error, and the entry above the query is not collected. *)
Theorem Values_absent_tile (cs : list call) (t : Tile) :
  (forall t' val, In (CallAdd t' val) cs ->
     String.prefix (QuadKey t) (QuadKey t') = false) ->
  snd (Values t (run cs)) = Ret [].
Proof.
  intros H. destruct (Values_collected_stored t cs) as (xs & Hv & Hxs).
  unfold collected in Hxs.
  rewrite (no_entry_under cs
             (fun k => strings.HasPrefix k (QuadKey t)) H) in Hxs.
  inversion Hxs; subst. exact Hv.
Qed.


(** ** What search returns *)

Lemma filter_split_length {A : Type} (P : A -> bool) (l : list A) (i : nat) :
  (forall k e, nth_error l k = Some e -> (k < i)%nat -> P e = true) ->
  (forall k e, nth_error l k = Some e -> (i <= k)%nat -> P e = false) ->
  (i <= length l)%nat ->
  length (filter P l) = i.
Proof.
  revert i. induction l as [|a l IH]; intros i Hlo Hhi Hi; simpl in *.
  - lia.
  - destruct i as [|i].
    + rewrite (Hhi 0%nat a eq_refl) by lia.
      apply IH; [intros k e _ Hk; lia | | lia].
      intros k e He _. apply (Hhi (S k)); [exact He | lia].
    + rewrite (Hlo 0%nat a eq_refl) by lia. simpl. f_equal.
      apply IH; [| | lia].
      * intros k e He Hk. apply (Hlo (S k)); [exact He | lia].
      * intros k e He Hk. apply (Hhi (S k)); [exact He | lia].
Qed.

(** X5. After any sequence of calls, [search] on the sorted index returns
    the number of entries whose key is below the query: the index of the
    first entry whose key is not below it, and [len(idx.keys)] when every
    key is below.  It does not panic. *)
Theorem search_counts_keys_below (cs : list call) (key : string) :
  search (sort (run cs)) key =
  Ret (Z.of_nat (length (filter (fun e => String.ltb (qk e) key)
                           (keys (sort (run cs)))))).
Proof.
  destruct (run_ok QuadKey TileFromQuadKey cs) as [Hflag _].
  pose proof (sort_key_sorted (run cs) Hflag) as Hsorted.
  unfold search. set (ks := keys (sort (run cs))) in *.
  destruct (Search_first (len ks)
              (fun i => e <- index ks i ;; Ret (strings.ge (qk e) key)))
    as (i & Hsearch & Hi & Hlo & Hhi).
  { unfold len. lia. }
  { intros k Hk. destruct (index_Ret ks k Hk) as (e & He & _).
    rewrite He. simpl. eauto. }
  { intros k k' Hk Hk'.
    destruct (index_Ret ks k) as (e & He & Hn); [lia|].
    destruct (index_Ret ks k') as (e' & He' & Hn'); [lia|].
    rewrite He, He'. simpl. intros H.
    assert (Hge : strings.ge (qk e) key = true) by congruence. clear H.
    f_equal. apply ge_true_sle. apply ge_true_sle in Hge.
    eapply sle_trans; [exact Hge|].
    eapply (key_sorted_nth ks (Z.to_nat k) (Z.to_nat k')); eauto. lia. }
  rewrite Hsearch. f_equal.
  rewrite (filter_split_length _ ks (Z.to_nat i)); [lia| | |unfold len in Hi; lia].
  - intros k e He Hk.
    assert (Hr : 0 <= Z.of_nat k < i) by lia. specialize (Hlo _ Hr).
    destruct (index_Ret ks (Z.of_nat k)) as (e0 & He0 & Hn0).
    { unfold len in *. lia. }
    rewrite Nat2Z.id in Hn0. rewrite He0 in Hlo. simpl in Hlo.
    assert (e0 = e) by congruence. subst e0.
    unfold strings.ge in Hlo. destruct (String.ltb (qk e) key); [reflexivity|].
    discriminate.
  - intros k e He Hk.
    assert (Hlt : (k < length ks)%nat) by (apply nth_error_Some; congruence).
    assert (Hr : i <= Z.of_nat k < len ks) by (unfold len; lia).
    specialize (Hhi _ Hr).
    destruct (index_Ret ks (Z.of_nat k)) as (e0 & He0 & Hn0).
    { unfold len in *. lia. }
    rewrite Nat2Z.id in Hn0. rewrite He0 in Hhi. simpl in Hhi.
    assert (e0 = e) by congruence. subst e0.
    unfold strings.ge in Hhi. destruct (String.ltb (qk e) key); [|reflexivity].
    discriminate.
Qed.

End TileIndexContents.

(** ** The order of the entries *)

Section ByQk.

Import GoFacts StringFacts SortFacts.

(** X6. [Less] orders the entries by key as [sort.Sort] requires of it:
    no entry is less than itself, two entries are never less than each
    other, the order is transitive, and two entries are unordered exactly
    when their keys are equal. *)
Theorem Less_strict_order_on_keys :
  (forall a, Less a a = false) /\
  (forall a b, Less a b = true -> Less b a = false) /\
  (forall a b c, Less a b = true -> Less b c = true -> Less a c = true) /\
  (forall a b, Less a b = false /\ Less b a = false <-> qk a = qk b).
Proof.
  split; [apply Less_irrefl|]. split; [apply Less_asym|]. split.
  - intros a b c Hab Hbc.
    destruct (Less a c) eqn:E; [reflexivity|].
    apply Less_asym in Hbc.
    apply Less_false_sle in E, Hbc.
    assert (H : strings.le (qk b) (qk a)) by (eapply sle_trans; eassumption).
    apply Less_false_sle in H. congruence.
  - intros a b. split.
    + intros [H1 H2]. apply Less_false_sle in H1, H2.
      apply sle_antisym; assumption.
    + intros E. unfold Less. rewrite E.
      pose proof (Less_irrefl b) as H. unfold Less in H. auto.
Qed.

End ByQk.

(** ** TileRange over a range of zoom levels *)

Section TileRangeLevels.

Import GoFacts StringFacts SortFacts.

Context {Tile V : Type}.
Variable QuadKey : Tile -> string.
Variable TileFromQuadKey : string -> Tile.
Context {sorter : Sorter}.

Local Abbreviation TileIndex := (@TileIndex V).
Local Abbreviation call := (@call Tile V).
Local Abbreviation TileRange := (@TileRange Tile V TileFromQuadKey sorter).
Local Abbreviation run := (@run Tile V QuadKey TileFromQuadKey sorter).

Lemma levels_In (zmin zmax : Z) (q : string) (z : nat) :
  0 <= zmin ->
  (In z (levels zmin zmax q) <->
   zmin <= Z.of_nat z <= zmax /\ Z.of_nat z <= strings.len q).
Proof.
  intros Hz. unfold levels. rewrite in_seq. lia.
Qed.

Lemma prefixes_NoDup (zmin zmax : Z) (q : string) :
  0 <= zmin -> NoDup (prefixes zmin zmax q).
Proof.
  intros Hz. unfold prefixes. apply NoDup_map_NoDup_ForallPairs.
  - intros z z' Hin Hin' E.
    apply (levels_In _ _ _ _ Hz) in Hin, Hin'. unfold strings.len in *.
    rewrite <- (length_substring z q), <- (length_substring z' q) by lia.
    rewrite E. reflexivity.
  - apply seq_NoDup.
Qed.

(** The two loops over the zoom levels. *)
Lemma TileRange_pair_levels (zmin zmax : Z) (q n : string) (tiles : list Tile) :
  0 <= zmin ->
  TileRange_pair TileFromQuadKey zmin zmax q n tiles =
  Ret (tiles ++
       map TileFromQuadKey
         (filter (fun p => negb (strings.HasPrefix n p)) (prefixes zmin zmax q))).
Proof.
  intros Hz. unfold TileRange_pair, prefixes, levels.
  set (top := Z.min zmax (strings.len q)).
  loop_with
    (fun s : Z * list Tile =>
       zmin <= fst s <= Z.max zmin (top + 1) /\
       snd s =
       tiles ++
       map TileFromQuadKey
         (filter (fun p => negb (strings.HasPrefix n p))
            (map (fun z => substring 0 z q)
               (seq (Z.to_nat zmin) (Z.to_nat (fst s - zmin))))))
    (fun s : Z * list Tile => Z.to_nat (strings.len q + 1 - fst s))
    as ([z ts] & Hw & [Hr Hts] & Hc).
  - intros [z ts] [Hr Hts] Hc. cbn [fst snd] in *.
    apply andb_prop in Hc. destruct Hc as [Hc1 Hc2].
    apply Z.leb_le in Hc1, Hc2.
    rewrite slice_to_Ret by lia. cbn [bind].
    assert (Hseq : seq (Z.to_nat zmin) (Z.to_nat (z + 1 - zmin)) =
                   seq (Z.to_nat zmin) (Z.to_nat (z - zmin)) ++ [Z.to_nat z]).
    { replace (Z.to_nat (z + 1 - zmin)) with (S (Z.to_nat (z - zmin))) by lia.
      rewrite seq_S. do 2 f_equal. lia. }
    destruct (strings.HasPrefix n (substring 0 (Z.to_nat z) q)) eqn:E;
      cbn [negb]; eexists; (split; [reflexivity|]); cbn [fst snd];
      (split; [split; [unfold top; lia|] | lia]);
      rewrite Hseq, map_app, filter_app; cbn [map filter]; rewrite E;
      cbn [negb]; rewrite Hts, map_app, <- ?app_assoc, ?app_nil_r; reflexivity.
  - cbn [fst snd]. split; [lia|].
    rewrite Z.sub_diag. cbn. rewrite app_nil_r. reflexivity.
  - cbn [fst]. unfold strings.len. lia.
  - rewrite Hw. cbn [bind fst snd] in *. rewrite Hts.
    assert (Z.to_nat (z - zmin) = Z.to_nat (top + 1 - zmin)) as ->;
      [|reflexivity].
    apply andb_false_iff in Hc.
    destruct Hc as [Hc|Hc]; apply Z.leb_gt in Hc; unfold top in *; lia.
Qed.

Lemma TileRange_last_levels (zmin zmax : Z) (q : string) (tiles : list Tile) :
  0 <= zmin ->
  TileRange_last TileFromQuadKey zmin zmax q tiles =
  Ret (tiles ++ map TileFromQuadKey (prefixes zmin zmax q)).
Proof.
  intros Hz. unfold TileRange_last, prefixes, levels.
  set (top := Z.min zmax (strings.len q)).
  loop_with
    (fun s : Z * list Tile =>
       zmin <= fst s <= Z.max zmin (top + 1) /\
       snd s =
       tiles ++
       map TileFromQuadKey
         (map (fun z => substring 0 z q)
            (seq (Z.to_nat zmin) (Z.to_nat (fst s - zmin)))))
    (fun s : Z * list Tile => Z.to_nat (strings.len q + 1 - fst s))
    as ([z ts] & Hw & [Hr Hts] & Hc).
  - intros [z ts] [Hr Hts] Hc. cbn [fst snd] in *.
    apply andb_prop in Hc. destruct Hc as [Hc1 Hc2].
    apply Z.leb_le in Hc1, Hc2.
    rewrite slice_to_Ret by lia. cbn [bind].
    assert (Hseq : seq (Z.to_nat zmin) (Z.to_nat (z + 1 - zmin)) =
                   seq (Z.to_nat zmin) (Z.to_nat (z - zmin)) ++ [Z.to_nat z]).
    { replace (Z.to_nat (z + 1 - zmin)) with (S (Z.to_nat (z - zmin))) by lia.
      rewrite seq_S. do 2 f_equal. lia. }
    eexists. split; [reflexivity|]. cbn [fst snd].
    split; [split; [unfold top; lia|] | lia].
    rewrite Hseq, !map_app, Hts, <- app_assoc. reflexivity.
  - cbn [fst snd]. split; [lia|].
    rewrite Z.sub_diag. cbn. rewrite app_nil_r. reflexivity.
  - cbn [fst]. unfold strings.len. lia.
  - rewrite Hw. cbn [bind fst snd] in *. rewrite Hts.
    assert (Z.to_nat (z - zmin) = Z.to_nat (top + 1 - zmin)) as ->;
      [|reflexivity].
    apply andb_false_iff in Hc.
    destruct Hc as [Hc|Hc]; apply Z.leb_gt in Hc; unfold top in *; lia.
Qed.

Lemma sent_step (zmin zmax : Z) (q n : qkey) (rest : list qkey) :
  sent zmin zmax (q :: n :: rest) =
  filter (fun p => negb (strings.HasPrefix (qk n) p))
    (prefixes zmin zmax (qk q)) ++ sent zmin zmax (n :: rest).
Proof. reflexivity. Qed.

(** On an index with an entry and for [zmin] not negative, [TileRange]
    returns the tiles of [sent]. *)
Lemma TileRange_sent (zmin zmax : Z) (idx : TileIndex) :
  keys idx <> [] -> 0 <= zmin ->
  snd (TileRange zmin zmax idx) =
  Ret (map TileFromQuadKey (sent zmin zmax (keys (sort idx)))).
Proof.
  intros Hne Hz.
  assert (Hne' : keys (sort idx) <> []).
  { intros E. apply Hne. eapply Permutation_nil.
    rewrite <- E. apply Permutation_sym, sort_keys_perm. }
  unfold tiles.TileRange. cbv zeta. cbn [snd].
  set (ks := keys (sort idx)) in *. clearbody ks. clear Hne.
  assert (Hpos : 1 <= len ks).
  { unfold len. destruct ks; [congruence|]. simpl. lia. }
  loop_with
    (fun s : Z * list Tile =>
       0 <= fst s <= len ks - 1 /\
       map TileFromQuadKey (sent zmin zmax ks) =
       snd s ++ map TileFromQuadKey
                  (sent zmin zmax (skipn (Z.to_nat (fst s)) ks)))
    (fun s : Z * list Tile => (length ks - Z.to_nat (fst s))%nat)
    as ([i tiles] & Hw & [Hi Hinv] & Hc).
  - intros [i tiles] [Hi Hinv] Hc. cbn [fst snd] in *. apply Z.ltb_lt in Hc.
    destruct (index_Ret ks i) as (q & Hq & Hnq); [lia|].
    destruct (index_Ret ks (i + 1)) as (n & Hn & Hnn); [lia|].
    rewrite Hq, Hn. cbn [bind].
    rewrite (TileRange_pair_levels _ _ _ _ _ Hz).
    cbn [bind]. eexists. split; [reflexivity|]. cbn [fst snd].
    split; [split; [lia|] | unfold len in *; lia].
    rewrite Hinv. rewrite <- app_assoc. f_equal.
    replace (Z.to_nat (i + 1)) with (S (Z.to_nat i)) in * by lia.
    rewrite (skipn_nth_error ks (Z.to_nat i) q Hnq).
    rewrite (skipn_nth_error ks (S (Z.to_nat i)) n Hnn).
    rewrite sent_step, map_app. reflexivity.
  - cbn [fst snd]. split; [lia|]. reflexivity.
  - cbn [fst]. lia.
  - rewrite Hw. cbn [bind fst snd] in *. apply Z.ltb_ge in Hc.
    assert (i = len ks - 1) as -> by lia.
    destruct (index_Ret ks (len ks - 1)) as (q & Hq & Hnq); [lia|].
    rewrite Hq. cbn [bind].
    rewrite (TileRange_last_levels _ _ _ _ Hz).
    f_equal. rewrite Hinv. f_equal.
    rewrite (skipn_nth_error ks _ q Hnq).
    rewrite skipn_all2 by (unfold len; lia). reflexivity.
Qed.

Lemma sent_In (zmin zmax : Z) (ks : list qkey) (p : string) :
  0 <= zmin ->
  (In p (sent zmin zmax ks) <->
   exists e z, In e ks /\ In z (levels zmin zmax (qk e)) /\
               p = substring 0 z (qk e)).
Proof.
  intros Hz. induction ks as [|q [|n rest] IH].
  - simpl. split; [tauto | intros (e & z & [] & _)].
  - cbn [sent]. unfold prefixes. rewrite in_map_iff. split.
    + intros (z & <- & Hin). exists q, z. simpl. auto.
    + intros (e & z & [<-|[]] & Hin & ->). eauto.
  - rewrite sent_step, in_app_iff, IH, filter_In.
    unfold prefixes. rewrite in_map_iff. split.
    + intros [[(z & <- & Hin) _]|(e & z & He & Hin & ->)].
      * exists q, z. split; [left; reflexivity | auto].
      * exists e, z. split; [right; exact He | auto].
    + intros (e & z & [Heq|He] & Hin & ->).
      * subst e.
        destruct (strings.HasPrefix (qk n) (substring 0 z (qk q))) eqn:E.
        -- right. exists n, z. split; [left; reflexivity|].
           apply (levels_In _ _ _ _ Hz) in Hin.
           unfold strings.HasPrefix in E.
           pose proof (prefix_length _ _ E) as Hlen.
           apply substring_prefix in E.
           unfold strings.len in Hin.
           rewrite length_substring in E, Hlen by lia.
           split; [|symmetry; exact E].
           apply (levels_In _ _ _ _ Hz). unfold strings.len. lia.
        -- left. split; [eauto | reflexivity].
      * right. exists e, z. auto.
Qed.

Lemma sent_NoDup (zmin zmax : Z) (ks : list qkey) :
  0 <= zmin -> key_sorted ks -> NoDup (sent zmin zmax ks).
Proof.
  intros Hz. induction ks as [|q [|n rest] IH]; intros Hs.
  - constructor.
  - cbn [sent]. apply prefixes_NoDup. exact Hz.
  - apply key_sorted_inv in Hs. destruct Hs as [Hs Hqle].
    rewrite sent_step. apply NoDup_app.
    + apply NoDup_filter, prefixes_NoDup. exact Hz.
    + apply IH. exact Hs.
    + intros p Hp Hin. apply filter_In in Hp. destruct Hp as [Hp Hn].
      unfold prefixes in Hp. apply in_map_iff in Hp.
      destruct Hp as (z & <- & Hz').
      apply (sent_In _ _ _ _ Hz) in Hin. destruct Hin as (e & z' & He & _ & Hp).
      assert (Hpe : String.prefix (substring 0 z (qk q)) (qk e) = true).
      { rewrite Hp. apply prefix_substring. }
      unfold strings.HasPrefix in Hn.
      rewrite (prefix_between _ (qk n) (qk e) Hpe) in Hn; [discriminate| |].
      * eapply sle_trans; [apply prefix_sle, prefix_substring|].
        rewrite Forall_forall in Hqle. apply Hqle. left. reflexivity.
      * destruct He as [->|He]; [apply sle_refl|].
        apply key_sorted_inv in Hs. destruct Hs as [_ Hn'].
        rewrite Forall_forall in Hn'. apply Hn'. exact He.
Qed.

(** X7. After calls that inserted at least one entry, and for [zmin] not
    negative, [TileRange zmin zmax] returns and does not panic, whatever
    [zmax] is.  What it sends are the tiles of a list of quadkeys without
    repetition whose members are exactly the prefixes [q[:z]] of the
    inserted keys [q] for the zoom levels [z] of the range that do not
    exceed [len(q)]: every ancestor in the range of every inserted tile
    once, and nothing else. *)
Theorem TileRange_coverage (cs : list call) (zmin zmax : Z) :
  (exists t val, In (CallAdd t val) cs) ->
  0 <= zmin ->
  exists ps,
    snd (TileRange zmin zmax (run cs)) = Ret (map TileFromQuadKey ps) /\
    NoDup ps /\
    forall p, In p ps <->
      exists t val z,
        In (CallAdd t val) cs /\
        zmin <= z <= zmax /\ z <= strings.len (QuadKey t) /\
        p = substring 0 (Z.to_nat z) (QuadKey t).
Proof.
  intros (t0 & val0 & Hin0) Hz.
  destruct (run_recorded QuadKey TileFromQuadKey cs) as [Hrec1 Hrec2].
  destruct (run_ok QuadKey TileFromQuadKey cs) as [Hflag _].
  exists (sent zmin zmax (keys (sort (run cs)))). split; [|split].
  - apply TileRange_sent; [|exact Hz].
    destruct (Hrec1 t0 val0 Hin0) as (e & He & _). intros E.
    rewrite E in He. contradiction.
  - apply sent_NoDup; [exact Hz | apply sort_key_sorted; exact Hflag].
  - intros p. rewrite (sent_In _ _ _ _ Hz). split.
    + intros (e & z & He & Hl & ->).
      destruct (Hrec2 e) as (t & val & Hin & Hk).
      { eapply Permutation_in; [apply Permutation_sym, sort_keys_perm | exact He]. }
      apply (levels_In _ _ _ _ Hz) in Hl. rewrite Hk in *.
      exists t, val, (Z.of_nat z). rewrite Nat2Z.id. tauto.
    + intros (t & val & z & Hin & Hr & Hl & ->).
      destruct (Hrec1 t val Hin) as (e & He & Hk & _).
      exists e, (Z.to_nat z). rewrite Hk. split; [|split; [|reflexivity]].
      * eapply Permutation_in; [apply sort_keys_perm | exact He].
      * apply (levels_In _ _ _ _ Hz). lia.
Qed.

Lemma sent_length (zmin zmax : Z) (ks : list qkey) :
  (length (sent zmin zmax ks) <= length ks * Z.to_nat (zmax + 1 - zmin))%nat.
Proof.
  assert (Hp : forall q, (length (prefixes zmin zmax q)
                          <= Z.to_nat (zmax + 1 - zmin))%nat).
  { intros q. unfold prefixes, levels. rewrite length_map, length_seq. lia. }
  induction ks as [|q [|n rest] IH].
  - simpl. lia.
  - cbn [sent length]. specialize (Hp (qk q)). lia.
  - rewrite sent_step, length_app.
    pose proof (filter_length_le
                  (fun p => negb (strings.HasPrefix (qk n) p))
                  (prefixes zmin zmax (qk q))) as Hf.
    specialize (Hp (qk q)). cbn [length] in *. lia.
Qed.

(** X12. On an index that has an entry and for [zmin] not negative,
    [TileRange] sends at most [zmax - zmin + 1] tiles for each entry of
    the index. *)
Theorem TileRange_sends_bounded (zmin zmax : Z) (idx : TileIndex) :
  keys idx <> [] -> 0 <= zmin ->
  exists tiles,
    snd (TileRange zmin zmax idx) = Ret tiles /\
    len tiles <= len (keys idx) * Z.max 0 (zmax + 1 - zmin).
Proof.
  intros Hne Hz. eexists. split; [apply TileRange_sent; assumption|].
  unfold len. rewrite length_map.
  pose proof (sent_length zmin zmax (keys (sort idx))) as H.
  rewrite <- (Permutation_length (sort_keys_perm idx)) in H.
  apply Nat2Z.inj_le in H. rewrite Nat2Z.inj_mul in H.
  replace (Z.of_nat (Z.to_nat (zmax + 1 - zmin)))
    with (Z.max 0 (zmax + 1 - zmin)) in H by lia.
  exact H.
Qed.

(** ** TileRange outside its precondition *)

Lemma while_ext {S : Type} (fuel : nat) (cond cond' : S -> bool)
  (body body' : S -> outcome S) (s : S) :
  (forall s, cond s = cond' s) -> (forall s, body s = body' s) ->
  while fuel cond body s = while fuel cond' body' s.
Proof.
  intros Hc Hb. revert s. induction fuel as [|fuel IH]; intros s; simpl;
    rewrite <- Hc; [reflexivity|].
  rewrite <- Hb. destruct (cond s); [|reflexivity].
  destruct (body s); auto.
Qed.

Lemma TileRange_pair_no_level (zmin zmax : Z) (q n : string) (tiles : list Tile) :
  zmax < zmin -> TileRange_pair TileFromQuadKey zmin zmax q n tiles = Ret tiles.
Proof.
  intros H. unfold TileRange_pair. rewrite while_done; [reflexivity|].
  replace (zmin <=? zmax) with false by (symmetry; apply Z.leb_gt; lia).
  reflexivity.
Qed.

Lemma TileRange_last_no_level (zmin zmax : Z) (q : string) (tiles : list Tile) :
  zmax < zmin -> TileRange_last TileFromQuadKey zmin zmax q tiles = Ret tiles.
Proof.
  intros H. unfold TileRange_last. rewrite while_done; [reflexivity|].
  replace (zmin <=? zmax) with false by (symmetry; apply Z.leb_gt; lia).
  reflexivity.
Qed.

Lemma keys_sort_nonempty (idx : TileIndex) :
  keys idx <> [] -> 1 <= len (keys (sort idx)).
Proof.
  intros Hne. unfold len.
  rewrite <- (Permutation_length (sort_keys_perm idx)).
  destruct (keys idx); [congruence | simpl; lia].
Qed.

(** X8. With [zmax] below [zmin], [TileRange] on an index that has an
    entry sends no tile and closes the channel: an empty range of zoom
    levels is not an error, also when the bounds are negative. *)
Theorem TileRange_empty_range (zmin zmax : Z) (idx : TileIndex) :
  keys idx <> [] -> zmax < zmin ->
  snd (TileRange zmin zmax idx) = Ret [].
Proof.
  intros Hne Hz. pose proof (keys_sort_nonempty idx Hne) as Hpos.
  unfold tiles.TileRange. cbv zeta. cbn [snd].
  set (ks := keys (sort idx)) in *. clearbody ks.
  loop_with
    (fun s : Z * list Tile => 0 <= fst s <= len ks - 1 /\ snd s = [])
    (fun s : Z * list Tile => (length ks - Z.to_nat (fst s))%nat)
    as ([i tiles] & Hw & [Hi Hts] & Hc).
  - intros [i tiles] [Hi Hts] Hc. cbn [fst snd] in *. apply Z.ltb_lt in Hc.
    destruct (index_Ret ks i) as (q & Hq & _); [lia|].
    destruct (index_Ret ks (i + 1)) as (n & Hn & _); [lia|].
    rewrite Hq, Hn. cbn [bind].
    rewrite (TileRange_pair_no_level _ _ _ _ _ Hz). cbn [bind].
    eexists. split; [reflexivity|]. cbn [fst snd].
    split; [split; [lia | exact Hts] | unfold len in *; lia].
  - cbn [fst snd]. split; [lia | reflexivity].
  - cbn [fst]. lia.
  - rewrite Hw. cbn [bind fst snd] in *. subst tiles.
    destruct (index_Ret ks (len ks - 1)) as (q & Hq & _); [lia|].
    rewrite Hq. cbn [bind]. apply TileRange_last_no_level. exact Hz.
Qed.

Lemma TileRange_pair_negative (zmin zmax : Z) (q n : string) (tiles : list Tile) :
  zmin < 0 -> zmin <= zmax ->
  TileRange_pair TileFromQuadKey zmin zmax q n tiles =
  Panic SliceBoundsOutOfRange.
Proof.
  intros Hneg Hz. unfold TileRange_pair. cbn [while].
  replace (zmin <=? zmax) with true by (symmetry; apply Z.leb_le; lia).
  replace (zmin <=? strings.len q) with true
    by (symmetry; apply Z.leb_le; unfold strings.len; lia).
  cbn [andb]. unfold strings.slice_to.
  replace (zmin <? 0) with true by (symmetry; apply Z.ltb_lt; lia).
  reflexivity.
Qed.

Lemma TileRange_last_negative (zmin zmax : Z) (q : string) (tiles : list Tile) :
  zmin < 0 -> zmin <= zmax ->
  TileRange_last TileFromQuadKey zmin zmax q tiles =
  Panic SliceBoundsOutOfRange.
Proof.
  intros Hneg Hz. unfold TileRange_last. cbn [while].
  replace (zmin <=? zmax) with true by (symmetry; apply Z.leb_le; lia).
  replace (zmin <=? strings.len q) with true
    by (symmetry; apply Z.leb_le; unfold strings.len; lia).
  cbn [andb]. unfold strings.slice_to.
  replace (zmin <? 0) with true by (symmetry; apply Z.ltb_lt; lia).
  reflexivity.
Qed.

(** X9. With a negative [zmin] that is not above [zmax], [TileRange] on
    an index that has an entry panics: the first slice [q[:z]] is taken at
    the negative [z]. *)
Theorem TileRange_negative_zoom_panics (zmin zmax : Z) (idx : TileIndex) :
  keys idx <> [] -> zmin < 0 -> zmin <= zmax ->
  snd (TileRange zmin zmax idx) = Panic SliceBoundsOutOfRange.
Proof.
  intros Hne Hneg Hz. pose proof (keys_sort_nonempty idx Hne) as Hpos.
  unfold tiles.TileRange. cbv zeta. cbn [snd].
  set (ks := keys (sort idx)) in *. clearbody ks.
  destruct (0 <? len ks - 1) eqn:Hc.
  - apply Z.ltb_lt in Hc.
    destruct (length ks) as [|fuel] eqn:Hlen; [unfold len in Hpos; lia|].
    cbn [while].
    replace (0 <? len ks - 1) with true by (symmetry; apply Z.ltb_lt; lia).
    destruct (index_Ret ks 0) as (q & Hq & _); [lia|].
    destruct (index_Ret ks (0 + 1)) as (n & Hn & _); [lia|].
    rewrite Hq, Hn. cbn [bind].
    rewrite (TileRange_pair_negative _ _ _ _ _ Hneg Hz). reflexivity.
  - rewrite while_done by exact Hc. cbn [bind].
    destruct (index_Ret ks (len ks - 1)) as (q & Hq & _); [lia|].
    rewrite Hq. cbn [bind]. apply TileRange_last_negative; assumption.
Qed.

Lemma zoom_cond_clip (z zmax zmax' l : Z) :
  l <= zmax -> l <= zmax' ->
  (z <=? zmax) && (z <=? l) = (z <=? zmax') && (z <=? l).
Proof.
  intros H H'. destruct (Z.leb_spec z l); [|rewrite !andb_false_r; reflexivity].
  rewrite !andb_true_r.
  replace (z <=? zmax) with true by (symmetry; apply Z.leb_le; lia).
  symmetry. apply Z.leb_le. lia.
Qed.

Lemma TileRange_pair_clip (zmin zmax zmax' : Z) (q n : string)
  (tiles : list Tile) :
  strings.len q <= zmax -> strings.len q <= zmax' ->
  TileRange_pair TileFromQuadKey zmin zmax q n tiles =
  TileRange_pair TileFromQuadKey zmin zmax' q n tiles.
Proof.
  intros H H'. unfold TileRange_pair. f_equal.
  apply while_ext; [|reflexivity].
  intros [z ts]. apply zoom_cond_clip; assumption.
Qed.

Lemma TileRange_last_clip (zmin zmax zmax' : Z) (q : string)
  (tiles : list Tile) :
  strings.len q <= zmax -> strings.len q <= zmax' ->
  TileRange_last TileFromQuadKey zmin zmax q tiles =
  TileRange_last TileFromQuadKey zmin zmax' q tiles.
Proof.
  intros H H'. unfold TileRange_last. f_equal.
  apply while_ext; [|reflexivity].
  intros [z ts]. apply zoom_cond_clip; assumption.
Qed.

(** X10. Raising [zmax] above the length of the longest key changes
    nothing: two calls of [TileRange] with the same [zmin] and with bounds
    [zmax] and [zmax'] that no key of the index exceeds leave the same
    index and give the same result (the same tiles in the same order, or
    the same panic). *)
Theorem TileRange_zmax_beyond_longest_key (zmin zmax zmax' : Z) (idx : TileIndex) :
  Forall (fun e => strings.len (qk e) <= zmax /\ strings.len (qk e) <= zmax')
    (keys idx) ->
  TileRange zmin zmax idx = TileRange zmin zmax' idx.
Proof.
  intros Hlen.
  assert (Hks : forall e, In e (keys (sort idx)) ->
                  strings.len (qk e) <= zmax /\ strings.len (qk e) <= zmax').
  { apply Forall_forall.
    eapply Permutation_Forall; [apply sort_keys_perm | exact Hlen]. }
  unfold tiles.TileRange. cbv zeta. f_equal.
  set (ks := keys (sort idx)) in *. clearbody ks.
  match goal with
  | |- bind ?a _ = bind ?b _ => assert (E : a = b)
  end.
  { apply while_ext; [reflexivity|]. intros [i ts].
    destruct (index ks i) as [q| |] eqn:Hq; cbn [bind]; [|reflexivity..].
    destruct (index ks (i + 1)) as [n| |]; cbn [bind]; [|reflexivity..].
    apply index_inv in Hq. destruct Hq as [_ Hq]. apply nth_error_In in Hq.
    destruct (Hks q Hq) as [H H'].
    rewrite (TileRange_pair_clip zmin zmax zmax' (qk q) (qk n) ts H H').
    reflexivity. }
  rewrite E.
  match goal with
  | |- bind ?w _ = _ => destruct w as [[i ts]| |]
  end; cbn [bind]; [|reflexivity..].
  destruct (index ks (len ks - 1)) as [q| |] eqn:Hq; cbn [bind];
    [|reflexivity..].
  apply index_inv in Hq. destruct Hq as [_ Hq]. apply nth_error_In in Hq.
  destruct (Hks q Hq) as [H H']. apply TileRange_last_clip; assumption.
Qed.

End TileRangeLevels.

(** ** Swapping entries *)

Section ByQkSwap.

Import GoFacts.

Lemma put_length {A : Type} (l : list A) (n : nat) (x : A) :
  (n < length l)%nat ->
  length (firstn n l ++ x :: skipn (S n) l) = length l.
Proof.
  intros H. rewrite length_app, length_firstn. cbn [length].
  rewrite length_skipn. lia.
Qed.

Lemma put_nth_error {A : Type} (l : list A) (n k : nat) (x : A) :
  (n < length l)%nat ->
  nth_error (firstn n l ++ x :: skipn (S n) l) k =
  if Nat.eqb k n then Some x else nth_error l k.
Proof.
  intros H. destruct (Nat.eqb_spec k n) as [->|Hk].
  - rewrite nth_error_app2 by (rewrite length_firstn; lia).
    rewrite length_firstn. replace (n - Nat.min n (length l))%nat with 0%nat by lia.
    reflexivity.
  - destruct (Nat.lt_ge_cases k n) as [Hlt|Hge].
    + rewrite nth_error_app1 by (rewrite length_firstn; lia).
      rewrite nth_error_firstn.
      destruct (Nat.ltb_spec k n); [reflexivity | lia].
    + rewrite nth_error_app2 by (rewrite length_firstn; lia).
      rewrite length_firstn.
      replace (k - Nat.min n (length l))%nat with (S (k - S n)) by lia.
      cbn [nth_error]. rewrite nth_error_skipn. f_equal. lia.
Qed.

Lemma put_perm {A : Type} (l : list A) (n : nat) (a x : A) :
  nth_error l n = Some a ->
  Permutation (x :: l) (a :: firstn n l ++ x :: skipn (S n) l).
Proof.
  intros H. rewrite <- (firstn_skipn_middle n l H) at 1.
  apply Permutation_trans with (x :: a :: firstn n l ++ skipn (S n) l).
  - apply perm_skip, Permutation_sym, Permutation_middle.
  - apply Permutation_trans with (a :: x :: firstn n l ++ skipn (S n) l).
    + apply perm_swap.
    + apply perm_skip, Permutation_middle.
Qed.

Lemma assign_Ret {A : Type} (l : list A) (i : Z) (x : A) :
  0 <= i < len l ->
  assign l i x = Ret (firstn (Z.to_nat i) l ++ x :: skipn (S (Z.to_nat i)) l).
Proof.
  intros H. unfold assign.
  destruct (i <? 0) eqn:E1; [lia|].
  destruct (len l <=? i) eqn:E2; [lia|]. reflexivity.
Qed.

Lemma index_put {A : Type} (l : list A) (i k : Z) (x : A) :
  0 <= i < len l ->
  index (firstn (Z.to_nat i) l ++ x :: skipn (S (Z.to_nat i)) l) k =
  if k =? i then Ret x else index l k.
Proof.
  intros Hi. unfold index.
  assert (Hlen : len (firstn (Z.to_nat i) l ++ x :: skipn (S (Z.to_nat i)) l)
                 = len l).
  { unfold len in *. rewrite put_length by lia. reflexivity. }
  rewrite Hlen.
  destruct ((k <? 0) || (len l <=? k)) eqn:E.
  - destruct (Z.eqb_spec k i); [|reflexivity]. subst k.
    apply orb_true_iff in E. destruct E as [E|E]; lia.
  - rewrite put_nth_error by (unfold len in Hi; lia).
    apply orb_false_iff in E. destruct E as [E1 E2].
    destruct (Z.eqb_spec k i) as [->|Hk].
    + rewrite Nat.eqb_refl. reflexivity.
    + destruct (Nat.eqb_spec (Z.to_nat k) (Z.to_nat i)); [lia | reflexivity].
Qed.

Lemma index_Panic {A : Type} (l : list A) (i : Z) (p : panic) :
  index l i = Panic p -> p = IndexOutOfRange.
Proof.
  unfold index. destruct ((i <? 0) || (len l <=? i)); [congruence|].
  destruct (nth_error l (Z.to_nat i)); congruence.
Qed.

(** X11. [Swap] with both indices inside the slice exchanges the two
    entries and touches no other: the slice keeps its length and stays a
    rearrangement of itself, and [Less(i, j)] after the call is
    [Less(j, i)] before it.  With an index outside the slice it panics. *)
Theorem Swap_exchanges_two_entries (q : byQk) (i j : Z) :
  (0 <= i < byQk_Len q -> 0 <= j < byQk_Len q ->
   exists q',
     byQk_Swap q i j = Ret q' /\
     byQk_Len q' = byQk_Len q /\
     Permutation q q' /\
     index q' i = index q j /\
     index q' j = index q i /\
     (forall k, k <> i -> k <> j -> index q' k = index q k) /\
     byQk_Less q' i j = byQk_Less q j i) /\
  (~ (0 <= i < byQk_Len q /\ 0 <= j < byQk_Len q) ->
   byQk_Swap q i j = Panic IndexOutOfRange).
Proof.
  unfold byQk_Len. split.
  - intros Hi Hj. unfold byQk_Swap.
    destruct (index_Ret q j Hj) as (b & Hb & Hnb).
    destruct (index_Ret q i Hi) as (a & Ha & Hna).
    rewrite Hb, Ha. cbn [bind]. rewrite (assign_Ret q i b Hi). cbn [bind].
    set (q1 := firstn (Z.to_nat i) q ++ b :: skipn (S (Z.to_nat i)) q).
    assert (Hlen1 : len q1 = len q).
    { unfold len, q1 in *. rewrite put_length by lia. reflexivity. }
    assert (Hj1 : 0 <= j < len q1) by lia.
    rewrite (assign_Ret q1 j a Hj1).
    set (q2 := firstn (Z.to_nat j) q1 ++ a :: skipn (S (Z.to_nat j)) q1).
    assert (Hq1 : forall k, index q1 k = if k =? i then Ret b else index q k).
    { intros k. apply index_put. exact Hi. }
    assert (Hq2 : forall k, index q2 k = if k =? j then Ret a else index q1 k).
    { intros k. apply index_put. exact Hj1. }
    assert (Hq1j : index q1 j = Ret b).
    { rewrite Hq1. destruct (j =? i); [reflexivity | exact Hb]. }
    assert (Hi2 : index q2 i = Ret b).
    { rewrite Hq2. destruct (Z.eqb_spec i j) as [E|E].
      - subst j. congruence.
      - rewrite Hq1, Z.eqb_refl. reflexivity. }
    assert (Hj2 : index q2 j = Ret a) by (rewrite Hq2, Z.eqb_refl; reflexivity).
    exists q2. split; [reflexivity|]. split; [|split; [|split; [|split; [|split]]]].
    + unfold len, q2 in *. rewrite put_length by lia. lia.
    + apply (Permutation_cons_inv (a := b)).
      apply Permutation_trans with (a :: q1).
      * apply put_perm. exact Hna.
      * apply put_perm. apply index_inv in Hq1j. tauto.
    + congruence.
    + congruence.
    + intros k Hki Hkj. rewrite Hq2, Hq1.
      destruct (Z.eqb_spec k j); [contradiction|].
      destruct (Z.eqb_spec k i); [contradiction|]. reflexivity.
    + unfold byQk_Less. rewrite Hi2, Hj2, Hb, Ha. reflexivity.
  - intros Hout. unfold byQk_Swap.
    destruct (index q j) as [b| |] eqn:Hb; cbn [bind].
    + destruct (index q i) as [a| |] eqn:Ha; cbn [bind].
      * apply index_inv in Hb, Ha. tauto.
      * apply index_Panic in Ha. subst p. reflexivity.
      * exfalso. exact (index_fuel q i Ha).
    + apply index_Panic in Hb. subst p. reflexivity.
    + exfalso. exact (index_fuel q j Hb).
Qed.

End ByQkSwap.

(** ** Instances of the further properties *)

Lemma Values_absent_tile_witness :
  snd (Values (sorter := insertion_sorter) QuadKeyOf "2"%string
         (run QuadKeyOf QuadKeyOf
            [CallAdd "120" "A"; CallAdd "1201" "B"; CallAdd "13" "C"]%string))
  = Ret [].
Proof.
  apply (Values_absent_tile QuadKeyOf QuadKeyOf
           [CallAdd "120" "A"; CallAdd "1201" "B"; CallAdd "13" "C"]%string
           "2"%string).
  intros t' val H. simpl in H.
  destruct H as [H|[H|[H|[]]]]; inversion H; subst; reflexivity.
Defined.


Lemma TileRange_coverage_witness :
  exists ps,
    snd (TileRange (sorter := insertion_sorter) QuadKeyOf 1 2
           (run QuadKeyOf QuadKeyOf
              [CallAdd "120" "A"; CallAdd "1201" "B"; CallAdd "13" "C"]%string))
    = Ret (map QuadKeyOf ps) /\
    NoDup ps /\
    forall p, In p ps <->
      exists t val z,
        In (CallAdd t val)
          [CallAdd "120" "A"; CallAdd "1201" "B"; CallAdd "13" "C"]%string /\
        1 <= z <= 2 /\ z <= strings.len (QuadKeyOf t) /\
        p = substring 0 (Z.to_nat z) (QuadKeyOf t).
Proof.
  apply (TileRange_coverage QuadKeyOf QuadKeyOf
           [CallAdd "120" "A"; CallAdd "1201" "B"; CallAdd "13" "C"]%string 1 2).
  - exists "120"%string, "A"%string. simpl. left. reflexivity.
  - lia.
Defined.

Lemma TileRange_sends_bounded_witness :
  exists tiles,
    snd (TileRange (sorter := insertion_sorter) QuadKeyOf 1 2 scenario)
    = Ret tiles /\
    len tiles <= len (keys scenario) * Z.max 0 (2 + 1 - 1).
Proof.
  apply (TileRange_sends_bounded QuadKeyOf 1 2 scenario).
  - discriminate.
  - lia.
Defined.

Lemma TileRange_empty_range_witness :
  snd (TileRange (sorter := insertion_sorter) QuadKeyOf 2 1 scenario) = Ret [].
Proof.
  apply (TileRange_empty_range QuadKeyOf 2 1 scenario).
  - discriminate.
  - lia.
Defined.

Lemma TileRange_negative_zoom_panics_witness :
  snd (TileRange (sorter := insertion_sorter) QuadKeyOf (-1) 2 scenario)
  = Panic SliceBoundsOutOfRange.
Proof.
  apply (TileRange_negative_zoom_panics QuadKeyOf (-1) 2 scenario).
  - discriminate.
  - lia.
  - lia.
Defined.

Lemma TileRange_zmax_beyond_longest_key_witness :
  TileRange (sorter := insertion_sorter) QuadKeyOf 1 4 scenario =
  TileRange (sorter := insertion_sorter) QuadKeyOf 1 7 scenario.
Proof.
  apply (TileRange_zmax_beyond_longest_key QuadKeyOf 1 4 7 scenario).
  repeat constructor; vm_compute; discriminate.
Defined.
